(** * Monitis SDK: the request-signing and parameter-normalisation core

    A shallow embedding of [monitis/api.py] together with the properties
    its specification states about it.  The wrappers of
    [monitis/monitors/predefined/internal/agent.py] only pass their name
    lists to [validate_kwargs] and the result on to [get] or [post]; their
    name lists serve as examples.

    Python 2 byte strings are Rocq [string]s, dictionaries with string keys
    are [gmap string _], and exceptions are an explicit [result] type.  The
    standard-library functions the module imports ([hashlib.sha1],
    [hmac.new], [base64.b64encode], [sorted], [str]) are modelled after
    their defining documents (RFC 3174, RFC 2104, RFC 4648). *)

From Stdlib Require Import ZArith QArith Ascii.
From stdpp Require Import base option list sorting strings pretty gmap fin_maps
  finite.

Local Open Scope Z_scope.

(** ** Python values, exceptions *)

(** The values that travel in keyword arguments and parameter sets. *)
Inductive value :=
  | VNone
  | VBool (b : bool)
  | VInt (n : Z)
  | VStr (s : string).

Global Instance value_eq_dec : EqDecision value.
Proof. solve_decision. Defined.

(** [str(v)] *)
Definition str (v : value) : string :=
  match v with
  | VNone => "None"
  | VBool true => "True"
  | VBool false => "False"
  | VInt n => pretty n
  | VStr s => s
  end.

(** Truth value of [v], as tested by [if v], [not v] and [v or w]. *)
Definition truthy (v : value) : bool :=
  match v with
  | VNone => false
  | VBool b => b
  | VInt n => negb (n =? 0)
  | VStr s => negb (bool_decide (s = ""))
  end.

(** [v is None] *)
Definition is_None (v : value) : bool :=
  match v with VNone => true | _ => false end.

(** An optional string argument or attribute ([None] or a [str]) as a value. *)
Definition of_opt (o : option string) : value :=
  match o with Some s => VStr s | None => VNone end.

Inductive exn :=
  | MonitisError (msg : string)
  | IndexError
  | TypeError
  | ValueError
  | OverflowError.

Inductive result (A : Type) :=
  | Ok (a : A)
  | Raise (e : exn).
Arguments Ok {A} a.
Arguments Raise {A} e.

Definition bind {A B} (m : result A) (k : A → result B) : result B :=
  match m with
  | Ok a => k a
  | Raise e => Raise e
  end.

Notation "x ←! m ; k" := (bind m (λ x, k))
  (at level 20, m at level 100, k at level 200, right associativity,
   format "x  ←!  m ;  '/' k").
Notation "' p ←! m ; k" := (bind m (λ p, k))
  (at level 20, p pattern, m at level 100, k at level 200,
   right associativity, format "' p  ←!  m ;  '/' k").

(** [x or y] where [x] is [None] or a string and [y] may raise: [y] is only
    evaluated when [x] is falsy. *)
Definition or_else (x : option string) (y : result string) : result string :=
  match x with
  | Some s => if bool_decide (s = "") then y else Ok s
  | None => y
  end.

(** ** Characters and byte strings *)

Definition ord (c : ascii) : Z := Z.of_N (N_of_ascii c).
Definition chr (z : Z) : ascii := ascii_of_N (Z.to_N (z mod 256)).

Definition bytes_of (s : string) : list Z := ord <$> String.list_ascii_of_string s.
Definition str_of (l : list Z) : string := String.string_of_list_ascii (chr <$> l).

(** [c.islower()], [c.isupper()] and [c.lower()] for a one-character byte
    string in the C locale. *)
Definition islower (c : ascii) : bool :=
  (97 <=? ord c) && (ord c <=? 122).
Definition isupper (c : ascii) : bool :=
  (65 <=? ord c) && (ord c <=? 90).
Definition lower_char (c : ascii) : ascii :=
  if isupper c then chr (ord c + 32) else c.

(** [s.lower()] *)
Fixpoint lower (s : string) : string :=
  match s with
  | EmptyString => EmptyString
  | String c r => String (lower_char c) (lower r)
  end.

(** [word[i]]; every use below is in range. *)
Definition char_at (word : string) (i : nat) : ascii :=
  default "000"%char (String.get i word).

(** [word[-1]] *)
Definition last_char (word : string) : option ascii :=
  last (String.list_ascii_of_string word).

(** ** camel2under *)

(** One iteration of the loop over [range(len(word)-1)]. *)
Definition camel2under_step (word : string) (result_list : list ascii)
    (i : nat) : list ascii :=
  let result_list := result_list ++ [char_at word i] in
  if islower (char_at word i) && isupper (char_at word (i + 1))
  then result_list ++ ["_"%char]
  else result_list.

Definition camel2under (word : string) : result string :=
  let result_list :=
    foldl (camel2under_step word) [] (seq 0 (String.length word - 1)) in
  match last_char word with
  | None => Raise IndexError
  | Some c => Ok (lower (String.string_of_list_ascii (result_list ++ [c])))
  end.

(** The conversion as the specification words it: an underscore after every
    lowercase letter that is immediately followed by an uppercase letter. *)
Fixpoint insert_boundaries (w : list ascii) : list ascii :=
  match w with
  | [] => []
  | c :: r =>
      match r with
      | d :: _ =>
          if islower c && isupper d
          then c :: "_"%char :: insert_boundaries r
          else c :: insert_boundaries r
      | [] => [c]
      end
  end.

(** Number of lower-to-upper transitions of a word. *)
Fixpoint boundaries (w : list ascii) : nat :=
  match w with
  | [] => 0%nat
  | c :: r =>
      match r with
      | d :: _ =>
          ((if islower c && isupper d then 1 else 0) + boundaries r)%nat
      | [] => 0%nat
      end
  end.

(** ** SHA-1 (RFC 3174), on lists of bytes *)

Module SHA1.
Definition w32 (x : Z) : Z := x mod 2 ^ 32.
Definition add32 (x y : Z) : Z := w32 (x + y).
Definition rotl (n x : Z) : Z :=
  w32 (Z.lor (Z.shiftl x n) (Z.shiftr x (32 - n))).
Definition not32 (x : Z) : Z := 2 ^ 32 - 1 - x.

(** [x] as [n] big-endian bytes. *)
Definition be_bytes (n : nat) (x : Z) : list Z :=
  (λ i, Z.shiftr x (8 * Z.of_nat (n - 1 - i)) mod 256) <$> seq 0 n.

Definition pad (msg : list Z) : list Z :=
  let len := Z.of_nat (length msg) in
  let k := Z.to_nat ((55 - len) mod 64) in
  msg ++ [128] ++ replicate k 0 ++ be_bytes 8 (8 * len).

Fixpoint be_word (bs : list Z) : Z :=
  match bs with
  | [] => 0
  | b :: r => b * 256 ^ Z.of_nat (length r) + be_word r
  end.

Fixpoint words (n : nat) (bs : list Z) : list Z :=
  match n with
  | O => []
  | S n' => be_word (take 4 bs) :: words n' (drop 4 bs)
  end.

Fixpoint blocks (n : nat) (bs : list Z) : list (list Z) :=
  match n with
  | O => []
  | S n' => words 16 (take 64 bs) :: blocks n' (drop 64 bs)
  end.

(** Message schedule: extend the 16 words of a block by [n] more. *)
Fixpoint schedule (n : nat) (w : list Z) : list Z :=
  match n with
  | O => w
  | S n' =>
      let i := length w in
      let x := Z.lxor (Z.lxor (nth (i - 3) w 0) (nth (i - 8) w 0))
                      (Z.lxor (nth (i - 14) w 0) (nth (i - 16) w 0)) in
      schedule n' (w ++ [rotl 1 x])
  end.

Definition f (t : nat) (b c d : Z) : Z :=
  if (t <? 20)%nat then Z.lor (Z.land b c) (Z.land (not32 b) d)
  else if (t <? 40)%nat then Z.lxor (Z.lxor b c) d
  else if (t <? 60)%nat then
    Z.lor (Z.lor (Z.land b c) (Z.land b d)) (Z.land c d)
  else Z.lxor (Z.lxor b c) d.

Definition K (t : nat) : Z :=
  if (t <? 20)%nat then 0x5A827999
  else if (t <? 40)%nat then 0x6ED9EBA1
  else if (t <? 60)%nat then 0x8F1BBCDC
  else 0xCA62C1D6.

Definition state : Type := Z * Z * Z * Z * Z.

Definition round (st : state) (tw : nat * Z) : state :=
  let '(a, b, c, d, e) := st in
  let '(t, w) := tw in
  let tmp :=
    add32 (add32 (add32 (add32 (rotl 5 a) (f t b c d)) e) w) (K t) in
  (tmp, a, rotl 30 b, c, d).

Definition compress (h : state) (blk : list Z) : state :=
  let w := schedule 64 blk in
  let '(a, b, c, d, e) := foldl round h (zip (seq 0 80) w) in
  let '(h0, h1, h2, h3, h4) := h in
  (add32 h0 a, add32 h1 b, add32 h2 c, add32 h3 d, add32 h4 e).

Definition init : state :=
  (0x67452301, 0xEFCDAB89, 0x98BADCFE, 0x10325476, 0xC3D2E1F0).

Definition digest (msg : list Z) : list Z :=
  let p := pad msg in
  let '(h0, h1, h2, h3, h4) :=
    foldl compress init (blocks (length p / 64) p) in
  be_bytes 4 h0 ++ be_bytes 4 h1 ++ be_bytes 4 h2 ++ be_bytes 4 h3
    ++ be_bytes 4 h4.
End SHA1.

(** ** HMAC (RFC 2104, as [hmac.py] implements it) over SHA-1 *)

Module HMAC.
Definition blocksize : nat := 64.

(** Keys longer than a block are hashed; all keys are then padded with
    zero bytes to the block size. *)
Definition block_key (key : list Z) : list Z :=
  let key :=
    if (blocksize <? length key)%nat then SHA1.digest key else key in
  key ++ replicate (blocksize - length key) 0.

Definition digest (key msg : list Z) : list Z :=
  let key := block_key key in
  let inner := SHA1.digest ((Z.lxor 0x36 <$> key) ++ msg) in
  SHA1.digest ((Z.lxor 0x5C <$> key) ++ inner).
End HMAC.

(** [new_hmac(key, msg, sha1).digest()] *)
Definition hmac_sha1 (key msg : string) : string :=
  str_of (HMAC.digest (bytes_of key) (bytes_of msg)).

(** ** Base64 (RFC 4648, standard alphabet with padding) *)

Definition b64_alphabet : string :=
  "ABCDEFGHIJKLMNOPQRSTUVWXYZabcdefghijklmnopqrstuvwxyz0123456789+/".

Definition b64_char (n : Z) : ascii := char_at b64_alphabet (Z.to_nat n).

Fixpoint b64_groups (bs : list Z) : list ascii :=
  match bs with
  | [] => []
  | [a] =>
      [b64_char (a / 4); b64_char (a mod 4 * 16); "="%char; "="%char]
  | [a; b] =>
      [b64_char (a / 4); b64_char (a mod 4 * 16 + b / 16);
       b64_char (b mod 16 * 4); "="%char]
  | a :: b :: c :: r =>
      b64_char (a / 4) :: b64_char (a mod 4 * 16 + b / 16)
        :: b64_char (b mod 16 * 4 + c / 64) :: b64_char (c mod 64)
        :: b64_groups r
  end.

Definition b64encode (s : string) : string :=
  String.string_of_list_ascii (b64_groups (bytes_of s)).

(** Lower-case hexadecimal rendering of a byte string (used to state the
    published test vectors). *)
Definition hexdigest (s : string) : string :=
  String.string_of_list_ascii
    (bytes_of s ≫= λ b,
       [char_at "0123456789abcdef" (Z.to_nat (b / 16));
        char_at "0123456789abcdef" (Z.to_nat (b mod 16))]).

(** [needle in haystack] for byte strings. *)
Fixpoint prefix_of (p s : string) : bool :=
  match p, s with
  | EmptyString, _ => true
  | String a p', String b s' => bool_decide (a = b) && prefix_of p' s'
  | String _ _, EmptyString => false
  end.

Fixpoint occurs_in (needle haystack : string) : bool :=
  prefix_of needle haystack ||
  match haystack with
  | EmptyString => false
  | String _ rest => occurs_in needle rest
  end.

(** [x or default] for an optional string [x]: [x] when it is a non-empty
    string. *)
Definition of_nonempty (x : option string) : option string :=
  match x with
  | Some s => if bool_decide (s = "") then None else Some s
  | None => None
  end.

(** ** The interpreter and libraries the module runs on *)

(** Decoded JSON, as [json.loads] returns it. *)
#[warnings="-register-all"]
Inductive json :=
  | JNull
  | JBool (b : bool)
  | JInt (n : Z)
  | JFloat (q : Q)
  | JStr (s : string)
  | JArr (l : list json)
  | JObj (l : list (string * json)).

(** [datetime] objects and the [struct_time] that [dt.timetuple()] yields
    (the sub-second field is dropped). *)
Record datetime := {
  year : Z; month : Z; day : Z; hour : Z; minute : Z; second : Z;
  microsecond : Z }.

Record struct_time := {
  tm_year : Z; tm_mon : Z; tm_mday : Z; tm_hour : Z; tm_min : Z; tm_sec : Z }.

Definition timetuple (dt : datetime) : struct_time :=
  {| tm_year := year dt; tm_mon := month dt; tm_mday := day dt;
     tm_hour := hour dt; tm_min := minute dt; tm_sec := second dt |}.

(** What the module leaves to the Python runtime: the order in which a
    dictionary enumerates its items (any order, each item once), the JSON
    parser (a value, or the text of its [ValueError]) and [time.mktime]
    (whole seconds since the epoch in the process's time zone, or the
    [ValueError] or [OverflowError] it raises for a time it cannot
    represent). *)
Class Runtime := {
  dict_items : ∀ {V : Type}, gmap string V → list (string * V);
  dict_items_perm :
    ∀ (V : Type) (m : gmap string V), dict_items m ≡ₚ map_to_list m;
  loads : string → string + json;
  mktime : struct_time → result Z }.

(** Days from 1970-01-01 to the given civil date (proleptic Gregorian). *)
Definition days_from_civil (y m d : Z) : Z :=
  let y := if m <=? 2 then y - 1 else y in
  let era := y / 400 in
  let yoe := y - era * 400 in
  let doy := (153 * (if 2 <? m then m - 3 else m + 9) + 2) / 5 + d - 1 in
  let doe := yoe * 365 + yoe / 4 - yoe / 100 + doy in
  era * 146097 + doe - 719468.

(** [time.mktime] of a process whose time zone is UTC.  Python 2 reads a
    year below 1900 as a two-digit year (69 to 99 in the 1900s, 0 to 68 in
    the 2000s) and refuses the others. *)
Definition mktime_utc (t : struct_time) : result Z :=
  y ←! (if 1900 <=? tm_year t then Ok (tm_year t)
        else if (69 <=? tm_year t) && (tm_year t <=? 99)
        then Ok (tm_year t + 1900)
        else if (0 <=? tm_year t) && (tm_year t <=? 68)
        then Ok (tm_year t + 2000)
        else Raise ValueError);
  Ok (days_from_civil y (tm_mon t) (tm_mday t) * 86400
      + tm_hour t * 3600 + tm_min t * 60 + tm_sec t).

(** A parser that knows the JSON literals; enough to run examples. *)
Definition loads_literals (s : string) : string + json :=
  if bool_decide (s = "null") then inr JNull
  else if bool_decide (s = "true") then inr (JBool true)
  else if bool_decide (s = "false") then inr (JBool false)
  else if bool_decide (s = "[]") then inr (JArr [])
  else if bool_decide (s = "{}") then inr (JObj [])
  else inl "No JSON object could be decoded".

(** A runtime to evaluate examples with. *)
Global Instance utc_runtime : Runtime := {|
  dict_items V m := map_to_list m;
  dict_items_perm V m := reflexivity (map_to_list m);
  loads := loads_literals;
  mktime := mktime_utc |}.

(** ** Process-wide state *)

(** The class attributes of [Monitis] and [os.environ]. *)
Record config := {
  Monitis_debug : bool;
  Monitis_sandbox : bool;
  Monitis_apikey : option string;
  Monitis_secretkey : option string;
  os_environ : gmap string string }.

Definition default_url : string := "http://monitis.com/api".
Definition sandbox_url : string := "http://sandbox.monitis.com/api".

Definition _api_url (c : config) : string :=
  if Monitis_sandbox c then sandbox_url else default_url.

(** The attributes of a [Monitis] instance, as attribute lookup on [self]
    finds them. *)
Record instance := {
  self_url : string;
  self_apikey : option string;
  self_secretkey : option string;
  self_validation : string;
  self_version : value }.

(** ** decode_json *)

Definition decode_json `{Runtime} (text : string) : result json :=
  match loads text with
  | inr j => Ok j
  | inl error => Raise (MonitisError ("JSON parse error" +:+ ": " +:+ error))
  end.

(** ** Credential resolution *)

Definition environ_key (c : config) (name : string) : option string :=
  os_environ c !! name.

Definition resolve_apikey (c : config) : result string :=
  match Monitis_apikey c with
  | Some apikey => Ok apikey
  | None =>
      let apikey :=
        if Monitis_sandbox c then environ_key c "MONITIS_SANDBOX_APIKEY"
        else environ_key c "MONITIS_APIKEY" in
      match apikey with
      | Some apikey => Ok apikey
      | None => Raise (MonitisError "The Monitis API key is required")
      end
  end.

Definition resolve_secretkey (c : config) : result string :=
  match Monitis_secretkey c with
  | Some secretkey => Ok secretkey
  | None =>
      let secretkey :=
        if Monitis_sandbox c then environ_key c "MONITIS_SANDBOX_SECRETKEY"
        else environ_key c "MONITIS_SECRETKEY" in
      match secretkey with
      | Some secretkey => Ok secretkey
      | None => Raise (MonitisError "The Monitis secret key is required")
      end
  end.

(** [Monitis.resolve_apikey(self)].  The module-level function it falls back
    on returns a string or raises, so the method's own final [raise] is never
    reached. *)
Definition Monitis_resolve_apikey (self : instance) (c : config)
    : result string :=
  match self_apikey self with
  | Some apikey => Ok apikey
  | None => apikey ←! resolve_apikey c; Ok apikey
  end.

Definition Monitis_resolve_secretkey (self : instance) (c : config)
    : result string :=
  match self_secretkey self with
  | Some secretkey => Ok secretkey
  | None => secretkey ←! resolve_secretkey c; Ok secretkey
  end.

(** The credential an instance method works with when the call site passes
    [apikey] (resp. [secretkey]) explicitly: [apikey or
    self.resolve_apikey()]. *)
Definition credential_apikey (explicit : option string) (self : instance)
    (c : config) : result string :=
  or_else explicit (Monitis_resolve_apikey self c).

Definition credential_secretkey (explicit : option string) (self : instance)
    (c : config) : result string :=
  or_else explicit (Monitis_resolve_secretkey self c).

(** [Monitis.__init__].  While it runs, [self] has no attributes of its own
    yet, so [self.apikey] and [self.secretkey] are the class attributes. *)
Definition Monitis_init (c : config) (apikey secretkey _url : option string)
    (version : value) (validation : option string) : result instance :=
  let self0 :=
    {| self_url := ""; self_apikey := Monitis_apikey c;
       self_secretkey := Monitis_secretkey c; self_validation := "";
       self_version := VNone |} in
  let url := default (_api_url c) (of_nonempty _url) in
  apikey ←! credential_apikey apikey self0 c;
  secretkey ←! credential_secretkey secretkey self0 c;
  Ok {| self_url := url; self_apikey := Some apikey;
        self_secretkey := Some secretkey;
        self_validation := default "HMACSHA1" (of_nonempty validation);
        self_version := if truthy version then version else VStr "2" |}.

(** The four sources of a credential, in the order the specification lists
    them, and the first non-empty one of them. *)
Definition first_nonempty (sources : list (option string)) : option string :=
  head (omap (λ o, o ≫= λ s, if bool_decide (s = "") then None else Some s)
             sources).

Definition apikey_env_name (c : config) : string :=
  if Monitis_sandbox c then "MONITIS_SANDBOX_APIKEY" else "MONITIS_APIKEY".
Definition secretkey_env_name (c : config) : string :=
  if Monitis_sandbox c then "MONITIS_SANDBOX_SECRETKEY"
  else "MONITIS_SECRETKEY".

Definition apikey_sources (explicit : option string) (self : instance)
    (c : config) : list (option string) :=
  [explicit; self_apikey self; Monitis_apikey c;
   os_environ c !! apikey_env_name c].

Definition secretkey_sources (explicit : option string) (self : instance)
    (c : config) : list (option string) :=
  [explicit; self_secretkey self; Monitis_secretkey c;
   os_environ c !! secretkey_env_name c].

(** ** validate_kwargs *)

(** [required] and [optional] are each a list of provider-format names or a
    dictionary from caller-format to provider-format names. *)
Inductive namespec :=
  | NameList (words : list string)
  | NameDict (names : gmap string string).

(** [for word in words: temp[camel2under(word)] = word] *)
Fixpoint names_to_dict (words : list string) (temp : gmap string string)
    : result (gmap string string) :=
  match words with
  | [] => Ok temp
  | word :: rest =>
      lc ←! camel2under word;
      names_to_dict rest (<[lc := word]> temp)
  end.

Definition as_dict (spec : namespec) : result (gmap string string) :=
  match spec with
  | NameList words => names_to_dict words ∅
  | NameDict names => Ok names
  end.

(** [kwargs.pop(key, default)]: the value and the dictionary afterwards. *)
Definition pop {V} (key : string) (dflt : V) (kwargs : gmap string V)
    : V * gmap string V :=
  (default dflt (kwargs !! key), delete key kwargs).

(** The value looked up under [lc] and then, if that gave [None], under
    [cc]; both lookups remove what they find. *)
Definition pop_either (lc cc : string) (kwargs : gmap string value)
    : value * gmap string value :=
  let '(value, kwargs) := pop lc VNone kwargs in
  if is_None value then pop cc VNone kwargs else (value, kwargs).

Fixpoint required_loop (items : list (string * string))
    (kwargs result_kwargs : gmap string value)
    : result (gmap string value * gmap string value) :=
  match items with
  | [] => Ok (kwargs, result_kwargs)
  | (lc, cc) :: rest =>
      let '(value, kwargs) := pop_either lc cc kwargs in
      if is_None value then Raise (MonitisError (lc +:+ " is required"))
      else required_loop rest kwargs (<[cc := value]> result_kwargs)
  end.

Fixpoint optional_loop (items : list (string * string))
    (kwargs result_kwargs : gmap string value)
    : gmap string value * gmap string value :=
  match items with
  | [] => (kwargs, result_kwargs)
  | (lc, cc) :: rest =>
      let '(value, kwargs) := pop_either lc cc kwargs in
      if is_None value then optional_loop rest kwargs result_kwargs
      else optional_loop rest kwargs (<[cc := value]> result_kwargs)
  end.

Definition validate_kwargs `{Runtime} (required optional : namespec)
    (kwargs : gmap string value) : result (gmap string value) :=
  required ←! as_dict required;
  optional ←! as_dict optional;
  '(kwargs, result_kwargs) ←! required_loop (dict_items required) kwargs ∅;
  let '(kwargs, result_kwargs) :=
    optional_loop (dict_items optional) kwargs result_kwargs in
  (* result_kwargs.update(kwargs) *)
  Ok (kwargs ∪ result_kwargs).

(** ** Time stamps *)

(** [n] in decimal, zero-padded on the left to [width] characters. *)
Definition zero_padded (width : nat) (n : Z) : string :=
  let digits := pretty n in
  String.string_of_list_ascii
    (replicate (width - String.length digits) "0"%char) +:+ digits.

(** [dt.strftime("%F %T")] *)
Definition strftime_F_T (dt : datetime) : string :=
  zero_padded 4 (year dt) +:+ "-" +:+ zero_padded 2 (month dt) +:+ "-"
  +:+ zero_padded 2 (day dt) +:+ " " +:+ zero_padded 2 (hour dt) +:+ ":"
  +:+ zero_padded 2 (minute dt) +:+ ":" +:+ zero_padded 2 (second dt).

(** The clock: what [datetime.utcnow()] and [time.time()] read. *)
Record clock := {
  utcnow : datetime;
  time : Q }.

Definition timestamp (now : clock) : string := strftime_F_T (utcnow now).

(** [int(x)] for a float [x]: truncation towards zero. *)
Definition int_of_float (x : Q) : Z := Z.quot (Qnum x) (Z.pos (Qden x)).

Definition checktime `{Runtime} (now : clock) (dt : option datetime)
    : result string :=
  epoch_time ←!
    match dt with
    | None => Ok (str (VInt (int_of_float (time now))))
    | Some dt =>
        seconds ←! mktime (timetuple dt);
        Ok (str (VInt seconds))
    end;
  Ok (epoch_time +:+ "000").

(** ** checksum *)

(** Order of [sorted] on [(key, value)] items; the keys of a dictionary are
    pairwise different, so the values never decide. *)
Definition item_le (x y : string * value) : Prop := String.le x.1 y.1.

Global Instance item_le_dec : RelDecision item_le.
Proof. intros x y. unfold item_le. apply _. Defined.

Definition sorted (items : list (string * value)) : list (string * value) :=
  merge_sort item_le items.

(** [''.join([''.join([str(x), str(y)]) for x, y in items])] *)
Fixpoint param_string (items : list (string * value)) : string :=
  match items with
  | [] => ""
  | (x, y) :: rest => (x +:+ str y) +:+ param_string rest
  end.

(** [b64encode(str(new_hmac(secretkey, param_string, sha1).digest()))]; a
    key that is not a string is a [TypeError] in [hmac]. *)
Definition sign (secretkey : value) (param_string : string) : result string :=
  match secretkey with
  | VStr secretkey => Ok (b64encode (hmac_sha1 secretkey param_string))
  | _ => Raise TypeError
  end.

(** The module-level [checksum].  The default handed to
    [kwargs.pop] is an ordinary argument: [resolve_secretkey()] is evaluated
    before [pop] is called. *)
Definition checksum `{Runtime} (c : config) (kwargs : gmap string value)
    : result string :=
  dflt ←! resolve_secretkey c;
  let '(secretkey, kwargs) := pop "secretkey" (VStr dflt) kwargs in
  sign secretkey (param_string (sorted (dict_items kwargs))).

(** The loop of [Monitis.checksum] that builds [param_string]. *)
Definition param_string_loop (args : list (string * value)) : string :=
  foldl (λ param_string '(key, value), (param_string +:+ key) +:+ str value)
        "" args.

Definition Monitis_checksum `{Runtime} (self : instance) (c : config)
    (kwargs : gmap string value) : result string :=
  '(secretkey, kwargs) ←!
    match kwargs !! "secretkey" with
    | Some secretkey => Ok (secretkey, delete "secretkey" kwargs)
    | None =>
        secretkey ←! or_else (self_secretkey self) (resolve_secretkey c);
        Ok (VStr secretkey, kwargs)
    end;
  let args := sorted (dict_items kwargs) in
  sign secretkey (param_string_loop args).

(** ** Transport *)

(** What is handed to [urlopen].  [urlencode] serialises the parameters into
    the query string (GET) or the form body (POST); a request is kept here
    with its parameters before that serialisation. *)
Inductive request :=
  | Get (url : string) (req_params : list (string * value))
  | Post (url : string) (post_args : gmap string value).

(** A response object; [res.read()] is its body. *)
Record response := { body : string }.

(** [urlopen] returns a response or raises [HTTPError], whose [read()] is the
    error page. *)
Inductive reply :=
  | Reply (res : response)
  | HTTPError (page : string).

Record world := {
  cfg : config;
  now : clock;
  urlopen : request → reply }.

(** What [get] and [post] hand back: the response object, a decoded JSON
    value, or a plain string. *)
Inductive returned :=
  | Response (res : response)
  | Decoded (j : json)
  | Text (s : string).

(** A computation that may call [urlopen] and may raise: the requests it
    sent, in order, and its outcome.  ([Monitis.debug] only switches
    diagnostic printing on and is not part of the outcome.) *)
Definition io (A : Type) : Type := list request * result A.

Definition io_ret {A} (a : A) : io A := ([], Ok a).
Definition io_raise {A} (e : exn) : io A := ([], Raise e).
Definition io_lift {A} (r : result A) : io A := ([], r).
Definition io_bind {A B} (m : io A) (k : A → io B) : io B :=
  match m with
  | (sent, Ok a) => let '(sent', r) := k a in (sent ++ sent', r)
  | (sent, Raise e) => (sent, Raise e)
  end.

Notation "x ←@ m ; k" := (io_bind m (λ x, k))
  (at level 20, m at level 100, k at level 200, right associativity,
   format "x  ←@  m ;  '/' k").

(** [try: res = urlopen(req) except HTTPError, error: raise
    MonitisError('API Error: ' + error.read())] *)
Definition urlopen_or_error (w : world) (req : request) : io response :=
  ([req],
   match urlopen w req with
   | Reply res => Ok res
   | HTTPError page => Raise (MonitisError ("API Error: " +:+ page))
   end).

Definition sent_requests {A} (m : io A) : list request := m.1.
Definition outcome {A} (m : io A) : result A := m.2.

(** [get(apikey, action, version, _url, **kwargs)]; [kwargs] holds the
    keyword arguments other than the named ones. *)
Definition get `{Runtime} (w : world) (apikey : option string)
    (action version : value) (_url : option string)
    (kwargs : gmap string value) : io returned :=
  let url := default (_api_url (cfg w)) (of_nonempty _url) in
  let '(_raw, kwargs) := pop "_raw" (VBool false) kwargs in
  let output := "JSON" in
  apikey ←@ io_lift (or_else apikey (resolve_apikey (cfg w)));
  if bool_decide (apikey = "")
  then io_raise (MonitisError "get: apikey is required")
  else if negb (truthy action)
  then io_raise (MonitisError "get: action is required")
  else
    let req_params :=
      [("apikey", VStr apikey); ("action", action);
       ("output", VStr output); ("version", version)]
        ++ dict_items kwargs in
    res ←@ urlopen_or_error w (Get url req_params);
    if truthy _raw then io_ret (Response res)
    else
      j ←@ io_lift (decode_json (body res));
      io_ret (Decoded j).

(** [post(apikey, secretkey, action, version, _url, **kwargs)] *)
Definition post `{Runtime} (w : world) (apikey secretkey : option string)
    (action version : value) (_url : option string)
    (kwargs : gmap string value) : io returned :=
  apikey ←@ io_lift (or_else apikey (resolve_apikey (cfg w)));
  secretkey ←@ io_lift (or_else secretkey (resolve_secretkey (cfg w)));
  let url := default (_api_url (cfg w)) (of_nonempty _url) in
  let '(_raw, kwargs) := pop "_raw" (VBool false) kwargs in
  if negb (truthy action)
  then io_raise (MonitisError "post: action is required")
  else
    let post_args := kwargs in
    let post_args := <["apikey" := VStr apikey]> post_args in
    let post_args := <["action" := action]> post_args in
    let post_args := <["version" := version]> post_args in
    let post_args := <["timestamp" := VStr (timestamp (now w))]> post_args in
    post_checksum ←@
      io_lift (checksum (cfg w) (<["secretkey" := VStr secretkey]> post_args));
    let post_args := <["checksum" := VStr post_checksum]> post_args in
    result ←@ urlopen_or_error w (Post url post_args);
    if truthy _raw then io_ret (Response result)
    else
      j ←@ io_lift (decode_json (body result));
      io_ret (Decoded j).

(** [Monitis.post(self, **kwargs)] *)
Definition Monitis_post `{Runtime} (self : instance) (w : world)
    (kwargs : gmap string value) : io returned :=
  let post_args := kwargs in
  let post_args := <["apikey" := of_opt (self_apikey self)]> post_args in
  let post_args := <["version" := self_version self]> post_args in
  let post_args := <["timestamp" := VStr (timestamp (now w))]> post_args in
  post_checksum ←@ io_lift (Monitis_checksum self (cfg w) post_args);
  let post_args := <["checksum" := VStr post_checksum]> post_args in
  result ←@ urlopen_or_error w (Post (self_url self) post_args);
  let ret := body result in
  io_ret (Text ret).

(** The free-function [post] called the way the bound method is,
    [post(apikey=self.apikey, secretkey=self.secretkey, version=self.version,
    _url=self.url, **kwargs)]: the credentials, version and endpoint come
    from the instance, the action from the keyword arguments.  A keyword
    argument that names a parameter already passed is a [TypeError] of the
    call. *)
Definition post_from_instance `{Runtime} (self : instance) (w : world)
    (kwargs : gmap string value) : io returned :=
  if bool_decide (Forall (λ name, kwargs !! name = None)
                    ["apikey"; "secretkey"; "version"; "_url"])
  then
    post w (self_apikey self) (self_secretkey self)
         (default VNone (kwargs !! "action")) (self_version self)
         (Some (self_url self)) (delete "action" kwargs)
  else io_raise TypeError.

(** The keys of the parameter set of a POST request. *)
Definition submitted (req : request) : gmap string value :=
  match req with
  | Post _ post_args => post_args
  | Get _ req_params => list_to_map req_params
  end.

(** ** Vocabulary of the statements, and example data *)

(** A word without uppercase letters. *)
Definition no_upper (word : string) : Prop :=
  Forall (λ c, isupper c = false) (String.list_ascii_of_string word).

(** The API key resolves to nothing: no non-empty explicit argument, and
    the value found by [resolve_apikey] is missing or empty. *)
Definition apikey_missing (apikey : option string) (c : config) : Prop :=
  of_nonempty apikey = None
  ∧ match Monitis_apikey c with
    | Some k => k = ""
    | None =>
        match os_environ c !! apikey_env_name c with
        | Some k => k = ""
        | None => True
        end
    end.

(** Closes a case of [get] that raised before sending anything. *)
Ltac get_raises :=
  split; [reflexivity|]; eexists; split; [reflexivity|];
  repeat split; try discriminate; intros;
  first [reflexivity | left; reflexivity | right; reflexivity
        | exfalso; intuition (eauto; congruence)].

(** The first source that holds a value at all, empty or not. *)
Definition first_set (sources : list (option string)) : option string :=
  head (omap id sources).

Definition key_or_raise (msg : string) (found : option string)
    : result string :=
  match found with
  | Some k => Ok k
  | None => Raise (MonitisError msg)
  end.

Definition example_instance : instance :=
  {| self_url := default_url; self_apikey := None; self_secretkey := None;
     self_validation := "HMACSHA1"; self_version := VStr "2" |}.

(** A process whose class-level API key is the empty string while the
    environment holds a key. *)
Definition empty_class_apikey : config :=
  {| Monitis_debug := false; Monitis_sandbox := false;
     Monitis_apikey := Some ""; Monitis_secretkey := None;
     os_environ := {[ "MONITIS_APIKEY" := "k" ]} |}.

(** [k] is one of the two spellings of the entry [(lc, cc)]. *)
Definition spelling (e : string * string) (k : string) : Prop :=
  k = e.1 ∨ k = e.2.

(** Two entries share no spelling. *)
Definition apart (e1 e2 : string * string) : Prop :=
  ∀ k, spelling e1 k → ¬ spelling e2 k.

(** The caller supplied a value other than [None] under a spelling of the
    entry. *)
Definition supplied_by (kwargs : gmap string value) (e : string * string)
    : Prop :=
  ∃ v, v ≠ VNone ∧ (kwargs !! e.1 = Some v ∨ kwargs !! e.2 = Some v).

(** Every entry of the list shares no spelling with the entries after it. *)
Fixpoint all_apart (items : list (string * string)) : Prop :=
  match items with
  | [] => True
  | e :: rest => Forall (apart e) rest ∧ all_apart rest
  end.

(** [(lc, cc)] is the entry that a name of [words] contributes. *)
Definition entry_of (words : list string) (e : string * string) : Prop :=
  e.2 ∈ words ∧ camel2under e.2 = Ok e.1.

(** Different names of [words] have different underscore forms. *)
Definition underscore_injective (words : list string) : Prop :=
  ∀ a b, a ∈ words → b ∈ words → camel2under a = camel2under b → a = b.

Global Instance exn_eq_dec : EqDecision exn.
Proof. solve_decision. Defined.

Global Instance result_eq_dec {A} `{EqDecision A} : EqDecision (result A).
Proof. solve_decision. Defined.

Global Instance item_le_trans : Transitive item_le.
Proof. intros x y z. unfold item_le. apply transitivity. Qed.

Global Instance item_le_total : Total item_le.
Proof. intros x y. unfold item_le. apply total, _. Qed.

(** The test-vector parameter set of the specification. *)
Definition test_vector : gmap string value :=
  {[ "action" := VStr "test"; "apikey" := VStr "abc";
     "version" := VStr "2" ]}.

(** The test vector listed in the order of its keys. *)
Definition test_vector_sorted : list (string * value) :=
  [("action", VStr "test"); ("apikey", VStr "abc"); ("version", VStr "2")].

(** A process with no class-level credentials and an empty environment. *)
Definition no_ambient_keys : config :=
  {| Monitis_debug := false; Monitis_sandbox := false;
     Monitis_apikey := None; Monitis_secretkey := None; os_environ := ∅ |}.

(** A process that finds both credentials in its environment. *)
Definition keys_in_environment : config :=
  {| Monitis_debug := false; Monitis_sandbox := false;
     Monitis_apikey := None; Monitis_secretkey := None;
     os_environ := {[ "MONITIS_APIKEY" := "abc";
                      "MONITIS_SECRETKEY" := "secret" ]} |}.

(** The instance [Monitis(apikey="abc", secretkey="secret")]. *)
Definition signed_in : instance :=
  {| self_url := default_url; self_apikey := Some "abc";
     self_secretkey := Some "secret"; self_validation := "HMACSHA1";
     self_version := VStr "2" |}.

(** The string that is signed for a parameter set. *)
Definition signed_string `{Runtime} (params : gmap string value) : string :=
  param_string (sorted (dict_items params)).



Definition example_clock : clock :=
  {| utcnow := {| year := 2011; month := 10; day := 1; hour := 3;
                  minute := 6; second := 40; microsecond := 0 |};
     time := 1317438400 |}.

(** A server that answers every request with the same body. *)
Definition replying (text : string) (req : request) : reply :=
  Reply {| body := text |}.

(** A process with its credentials in the environment, talking to a server
    that answers with an empty JSON object. *)
Definition example_world : world :=
  {| cfg := keys_in_environment; now := example_clock;
     urlopen := replying "{}" |}.

(** The keys every POST must carry. *)
Definition post_keys : list string :=
  ["apikey"; "action"; "version"; "timestamp"; "checksum"].

(** Unfolds the transport layer down to its case distinctions. *)
Ltac unfold_io :=
  unfold io_bind, io_lift, io_ret, io_raise, urlopen_or_error,
    outcome, sent_requests in *;
  simpl in *.

(** ** Vocabulary of the further properties *)

(** No source holds the credential: no non-empty explicit argument, no class
    attribute and no environment variable. *)
Definition apikey_unset (apikey : option string) (c : config) : Prop :=
  of_nonempty apikey = None ∧ Monitis_apikey c = None
  ∧ os_environ c !! apikey_env_name c = None.

Definition secretkey_unset (secretkey : option string) (c : config) : Prop :=
  of_nonempty secretkey = None ∧ Monitis_secretkey c = None
  ∧ os_environ c !! secretkey_env_name c = None.

Global Instance apikey_unset_dec apikey c : Decision (apikey_unset apikey c).
Proof. unfold apikey_unset. apply _. Defined.

Global Instance secretkey_unset_dec secretkey c :
  Decision (secretkey_unset secretkey c).
Proof. unfold secretkey_unset. apply _. Defined.

(** The endpoint a request goes to. *)
Definition request_url (req : request) : string :=
  match req with
  | Get url _ => url
  | Post url _ => url
  end.

(** A process without credentials, talking to the example server. *)
Definition world_without_keys : world :=
  {| cfg := no_ambient_keys; now := example_clock; urlopen := replying "{}" |}.

(** A server that answers every request with an HTTP error page. *)
Definition failing (page : string) (req : request) : reply := HTTPError page.

(** The flag [_raw] of a call; [False] when it is not passed. *)
Definition raw_requested (kwargs : gmap string value) : bool :=
  truthy (default (VBool false) (kwargs !! "_raw")).

(** What [get] and [post] make of a response: the response itself when
    [_raw] was asked for, and what [decode_json] makes of its body
    otherwise. *)
Definition handled `{Runtime} (kwargs : gmap string value) (res : response)
    : result returned :=
  if raw_requested kwargs then Ok (Response res)
  else match loads (body res) with
       | inr j => Ok (Decoded j)
       | inl error => Raise (MonitisError ("JSON parse error: " +:+ error))
       end.

(** The keys that [Monitis.post] sets itself. *)
Definition Monitis_post_keys : list string :=
  ["apikey"; "version"; "timestamp"; "checksum"].

(** What the normalizer leaves under the provider-format name of a listed
    entry: the provider-format argument if the lookups did not remove it,
    else the value the lookups found, unless that is [None]. *)
Definition merged (kwargs : gmap string value) (e : string * string)
    : option value :=
  let '(value, kwargs) := pop_either e.1 e.2 kwargs in
  match kwargs !! e.2 with
  | Some x => Some x
  | None => if is_None value then None else Some value
  end.

(** ** agent.py *)

(** The required and the optional names that each call of agent.py hands to
    [validate_kwargs], in the order of the file: [agents], [agent_info],
    [all_agents_snapshot], [agent_snapshot], [delete_agents],
    [download_agent]. *)
Definition agent_names : list (list string * list string) :=
  [([], ["keyRegExp"]);
   (["agentId"], ["loadTests"]);
   (["platform"], ["timezone"; "tag"]);
   (["agentKey"], ["timezone"]);
   ([], ["agentIds"; "keyRegExp"]);
   (["platform"], [])].


(** Names that are non-empty, have pairwise different underscore forms, and
    are not listed as required and optional at once. *)
Definition well_formed_names (required optional : list string) : Prop :=
  Forall (λ w, w ≠ "") (required ++ optional)
  ∧ underscore_injective (required ++ optional)
  ∧ ∀ w, w ∈ required → w ∉ optional.

Global Instance supplied_by_dec kwargs e : Decision (supplied_by kwargs e).
Proof.
  unfold supplied_by.
  destruct (kwargs !! e.1) as [u|], (kwargs !! e.2) as [x|];
    try destruct (decide (u = VNone)) as [->|Hu];
    try destruct (decide (x = VNone)) as [->|Hx];
    first [ left; eexists; split; [|left; reflexivity]; assumption
          | left; eexists; split; [|right; reflexivity]; assumption
          | right; intros (v & Hv & [Hk|Hk]); congruence ].
Defined.

(** A string of decimal digits of the given length, and the number it
    writes. *)
Definition is_digit (c : ascii) : bool := (48 <=? ord c) && (ord c <=? 57).

Definition number (s : string) : Z :=
  foldl (λ n c, 10 * n + (ord c - 48)) 0 (String.list_ascii_of_string s).

Definition writes (width : nat) (n : Z) (s : string) : bool :=
  bool_decide (String.length s = width)
  && forallb is_digit (String.list_ascii_of_string s)
  && bool_decide (number s = n).

(** The fields of a [datetime] are in the ranges [strftime] accepts. *)
Definition in_range (dt : datetime) : Prop :=
  1900 ≤ year dt ≤ 9999 ∧ 1 ≤ month dt ≤ 12 ∧ 1 ≤ day dt ≤ 31
  ∧ 0 ≤ hour dt ≤ 23 ∧ 0 ≤ minute dt ≤ 59 ∧ 0 ≤ second dt ≤ 59.

(** A process in sandbox mode with keys for both modes in its environment. *)
Definition sandbox_config : config :=
  {| Monitis_debug := false; Monitis_sandbox := true;
     Monitis_apikey := None; Monitis_secretkey := None;
     os_environ := {[ "MONITIS_APIKEY" := "abc";
                      "MONITIS_SECRETKEY" := "secret";
                      "MONITIS_SANDBOX_APIKEY" := "sbx";
                      "MONITIS_SANDBOX_SECRETKEY" := "sbxsecret" ]} |}.




(** * Properties *)

(** ** Strings as lists of characters *)

Lemma string_get_lookup (s : string) (i : nat) :
  String.get i s = String.list_ascii_of_string s !! i.
Proof.
  revert i. induction s as [|c s IH]; intros [|i]; simpl; auto.
Qed.

Lemma string_length_list (s : string) :
  String.length s = length (String.list_ascii_of_string s).
Proof. induction s; simpl; auto. Qed.

Lemma lower_of_list (l : list ascii) :
  lower (String.string_of_list_ascii l)
  = String.string_of_list_ascii (lower_char <$> l).
Proof. induction l as [|c l IH]; [done|]. cbn. by rewrite IH. Qed.

Lemma string_of_list_length (l : list ascii) :
  String.length (String.string_of_list_ascii l) = length l.
Proof. induction l; simpl; auto. Qed.

Lemma lower_char_fixed (c : ascii) : isupper c = false → lower_char c = c.
Proof. unfold lower_char. by intros ->. Qed.

(** ** camel2under *)

Lemma insert_boundaries_length (w : list ascii) :
  length (insert_boundaries w) = (length w + boundaries w)%nat.
Proof.
  induction w as [|c [|d r] IH]; simpl in *; auto.
  destruct (islower c && isupper d); simpl; rewrite IH; lia.
Qed.

(** The loop over the indices below [len(word) - 1], followed by the append
    of the last character, computes [insert_boundaries]. *)
Lemma camel2under_loop (word : string) (pre rest acc : list ascii) :
  String.list_ascii_of_string word = pre ++ rest →
  rest ≠ [] →
  foldl (camel2under_step word) acc (seq (length pre) (length rest - 1))
    ++ option_list (last rest)
  = acc ++ insert_boundaries rest.
Proof.
  intros Hw. revert pre acc Hw.
  induction rest as [|c rest IH]; intros pre acc Hw Hne; [done|].
  destruct rest as [|d rest].
  { simpl. done. }
  assert (Hc : char_at word (length pre) = c).
  { unfold char_at. rewrite string_get_lookup, Hw.
    by rewrite lookup_app_r, Nat.sub_diag by lia. }
  assert (Hd : char_at word (length pre + 1) = d).
  { unfold char_at. rewrite string_get_lookup, Hw.
    rewrite lookup_app_r by lia.
    by replace (length pre + 1 - length pre)%nat with 1%nat by lia. }
  replace (length (c :: d :: rest) - 1)%nat
    with (S (length (d :: rest) - 1)) by (simpl; lia).
  cbn [seq foldl]. unfold camel2under_step at 2. rewrite Hc, Hd.
  specialize (IH (pre ++ [c])).
  rewrite length_app in IH. simpl in IH.
  replace (S (length pre)) with (length pre + 1)%nat by lia.
  replace (last (c :: d :: rest)) with (last (d :: rest)) by done.
  change (insert_boundaries (c :: d :: rest))
    with (if islower c && isupper d
          then c :: "_"%char :: insert_boundaries (d :: rest)
          else c :: insert_boundaries (d :: rest)).
  destruct (islower c && isupper d).
  - rewrite IH; [|by rewrite <-app_assoc|done].
    by rewrite <-!app_assoc.
  - rewrite IH; [|by rewrite <-app_assoc|done].
    by rewrite <-!app_assoc.
Qed.

Lemma camel2under_eq (word : string) :
  word ≠ "" →
  camel2under word
  = Ok (lower (String.string_of_list_ascii
                 (insert_boundaries (String.list_ascii_of_string word)))).
Proof.
  intros Hne. unfold camel2under, last_char.
  pose proof (camel2under_loop word [] (String.list_ascii_of_string word) []
                eq_refl) as Hloop.
  simpl in Hloop. rewrite <-string_length_list in Hloop.
  destruct (last (String.list_ascii_of_string word)) as [c|] eqn:Hlast.
  - simpl in Hloop. rewrite Hloop; [done|].
    intros Hnil. by rewrite Hnil in Hlast.
  - apply last_None in Hlast. destruct word; [done|discriminate].
Qed.

Lemma camel2under_empty : camel2under "" = Raise IndexError.
Proof. reflexivity. Qed.

Lemma insert_boundaries_no_upper (w : list ascii) :
  Forall (λ c, isupper c = false) w → insert_boundaries w = w.
Proof.
  induction w as [|c [|d r] IH]; intros Hw; simpl in *; auto.
  inversion Hw as [|?? Hc Hr]; subst.
  inversion Hr as [|?? Hd _]; subst.
  rewrite Hd, andb_false_r. f_equal. by apply IH.
Qed.

Lemma lower_no_upper (l : list ascii) :
  Forall (λ c, isupper c = false) l → lower_char <$> l = l.
Proof.
  induction 1 as [|c l Hc _ IH]; [done|].
  rewrite fmap_cons, IH. by rewrite lower_char_fixed.
Qed.

Lemma string_list_string (s : string) :
  String.string_of_list_ascii (String.list_ascii_of_string s) = s.
Proof. apply String.string_of_list_ascii_of_string. Qed.

Lemma camel2under_no_upper (word : string) :
  word ≠ "" → no_upper word → camel2under word = Ok word.
Proof.
  intros Hne Hlow. rewrite camel2under_eq by done.
  rewrite insert_boundaries_no_upper by done.
  rewrite lower_of_list, lower_no_upper by done.
  by rewrite string_list_string.
Qed.

Lemma isupper_lower_char (c : ascii) : isupper (lower_char c) = false.
Proof.
  unfold lower_char. destruct (isupper c) eqn:Hc; [|done].
  revert Hc. unfold isupper, chr, ord.
  destruct c as [[] [] [] [] [] [] [] []]; vm_compute; congruence.
Qed.

(** The result of the conversion holds no uppercase letter. *)
Lemma camel2under_result_no_upper (word out : string) :
  camel2under word = Ok out → no_upper out ∧ out ≠ "".
Proof.
  destruct (decide (word = "")) as [->|Hne]; [done|].
  rewrite camel2under_eq by done. intros [= <-].
  rewrite lower_of_list. split.
  - unfold no_upper. rewrite String.list_ascii_of_string_of_list_ascii.
    apply Forall_fmap, Forall_true. intros c. apply isupper_lower_char.
  - destruct word as [|c [|d r]]; [done|done|]. simpl.
    by destruct (islower c && isupper d).
Qed.

Lemma camel2under_idempotent (word out : string) :
  camel2under word = Ok out → camel2under out = Ok out.
Proof.
  intros [??]%camel2under_result_no_upper. by apply camel2under_no_upper.
Qed.


(** C5 (as amended): for every non-empty word the conversion succeeds; its
    result is the word with an underscore inserted after each lowercase
    letter that is immediately followed by an uppercase letter, and nowhere
    else, then lower-cased.  A single-character name gets no underscore and
    is lower-cased; a name without uppercase letters is returned unchanged,
    and the conversion is idempotent.  The three named examples hold. *)
Theorem camel2under_inserts_at_boundaries :
  (∀ word : string,
     word ≠ "" →
     ∃ out,
       camel2under word = Ok out
       ∧ out = lower (String.string_of_list_ascii
                        (insert_boundaries (String.list_ascii_of_string word)))
       ∧ String.length out
         = (String.length word
            + boundaries (String.list_ascii_of_string word))%nat
       ∧ (String.length word = 1%nat → out = lower word)
       ∧ (no_upper word → out = word)
       ∧ camel2under out = Ok out)
  ∧ camel2under "agentId" = Ok "agent_id"
  ∧ camel2under "allAgentsSnapshot" = Ok "all_agents_snapshot"
  ∧ camel2under "agents" = Ok "agents".
Proof.
  split; [|by vm_compute].
  intros word Hne. eexists. split; [by apply camel2under_eq|].
  split; [done|]. split; [|split; [|split]].
  - rewrite lower_of_list, string_of_list_length, length_fmap.
    by rewrite insert_boundaries_length, string_length_list.
  - destruct word as [|c [|d r]]; simpl; [done|done|discriminate].
  - intros Hlow. pose proof (camel2under_no_upper word Hne Hlow) as Hw.
    rewrite camel2under_eq in Hw by done. congruence.
  - eapply camel2under_idempotent, camel2under_eq. done.
Qed.

Lemma camel2under_inserts_at_boundaries_witness :
  ∃ out, camel2under "keyRegExp" = Ok out ∧ out = "key_reg_exp".
Proof.
  destruct (proj1 camel2under_inserts_at_boundaries "keyRegExp")
    as (out & Hout & Hspec & _); [discriminate|].
  exists out. split; [exact Hout|]. rewrite Hspec. reflexivity.
Defined.

(** C5 as stated fails: a single uppercase character is not left unchanged,
    it is lower-cased. *)
Lemma camel2under_single_upper_lowered :
  ¬ (∀ word : string,
       String.length word = 1%nat → camel2under word = Ok word).
Proof. intros Hall. specialize (Hall "A" eq_refl). discriminate Hall. Qed.

(** ** checktime *)

Lemma int_of_float_whole_second (x : Q) (n : Z) :
  0 ≤ n → (inject_Z n <= x)%Q → (x < inject_Z (n + 1))%Q →
  int_of_float x = n.
Proof.
  destruct x as [p q]. unfold int_of_float, Qle, Qlt, inject_Z. simpl.
  intros Hn Hle Hlt.
  rewrite Z.quot_div_nonneg by lia.
  symmetry. apply (Z.div_unique_pos p (Z.pos q) n (p - n * Z.pos q)); lia.
Qed.

(** ** get *)

Lemma or_else_nonempty (x : option string) (y : result string) :
  or_else x y
  = match of_nonempty x with Some s => Ok s | None => y end.
Proof. destruct x as [s|]; simpl; [|done]. by case_bool_decide. Qed.

Lemma resolve_apikey_env (c : config) :
  resolve_apikey c
  = match Monitis_apikey c with
    | Some k => Ok k
    | None =>
        match os_environ c !! apikey_env_name c with
        | Some k => Ok k
        | None => Raise (MonitisError "The Monitis API key is required")
        end
    end.
Proof.
  unfold resolve_apikey, apikey_env_name, environ_key.
  by destruct (Monitis_apikey c), (Monitis_sandbox c).
Qed.

Lemma resolve_secretkey_env (c : config) :
  resolve_secretkey c
  = match Monitis_secretkey c with
    | Some k => Ok k
    | None =>
        match os_environ c !! secretkey_env_name c with
        | Some k => Ok k
        | None => Raise (MonitisError "The Monitis secret key is required")
        end
    end.
Proof.
  unfold resolve_secretkey, secretkey_env_name, environ_key.
  by destruct (Monitis_secretkey c), (Monitis_sandbox c).
Qed.

(** C7: a [get] whose API key resolves to nothing, or whose action is
    absent, raises a validation error without sending any request.  The
    error for the missing key is one of the two key messages, the error for
    the missing action (when the key is there) is the action message, and
    the action message differs from both key messages. *)
Theorem get_validates_before_network `{Runtime} (w : world)
    (apikey : option string) (action version : value)
    (_url : option string) (kwargs : gmap string value) :
  apikey_missing apikey (cfg w) ∨ truthy action = false →
  sent_requests (get w apikey action version _url kwargs) = []
  ∧ ∃ msg,
      outcome (get w apikey action version _url kwargs)
      = Raise (MonitisError msg)
      ∧ (apikey_missing apikey (cfg w) →
         msg = "The Monitis API key is required"
         ∨ msg = "get: apikey is required")
      ∧ (¬ apikey_missing apikey (cfg w) → msg = "get: action is required")
      ∧ "get: action is required" ≠ "The Monitis API key is required"
      ∧ "get: action is required" ≠ "get: apikey is required".
Proof.
  intros Hbad. unfold get, apikey_missing in *.
  rewrite or_else_nonempty, resolve_apikey_env.
  destruct (pop "_raw" (VBool false) kwargs) as [_raw kwargs'].
  destruct (of_nonempty apikey) as [k|] eqn:Hexp.
  - assert (k ≠ "") as Hk.
    { destruct apikey as [s|]; simpl in Hexp; [|done].
      case_bool_decide; congruence. }
    destruct Hbad as [[? _]|Hact]; [done|].
    simpl. rewrite bool_decide_eq_false_2 by done. rewrite Hact. simpl.
    get_raises.
  - destruct (Monitis_apikey (cfg w)) as [k|] eqn:Hcls.
    + simpl. case_bool_decide as Hk.
      * get_raises.
      * destruct Hbad as [[_ ?]|Hact]; [done|]. rewrite Hact. simpl.
        get_raises.
    + destruct (os_environ (cfg w) !! apikey_env_name (cfg w)) as [k|].
      * simpl. case_bool_decide as Hk.
        -- get_raises.
        -- destruct Hbad as [[_ ?]|Hact]; [done|]. rewrite Hact. simpl.
           get_raises.
      * simpl. get_raises.
Qed.


(** ** Credential resolution *)

(** C4 (as amended): each credential is resolved from its own four sources
    in the order explicit argument, instance value, class-level value,
    environment variable named after the sandbox flag.  The explicit argument
    wins when it is a non-empty string; below it the first source that is
    set at all (not [None]) wins, even when it holds the empty string.  When
    no source is set the API key fails with its own message and the secret
    key with another. *)
Theorem credentials_resolve_by_priority (explicit : option string)
    (self : instance) (c : config) :
  credential_apikey explicit self c
  = key_or_raise "The Monitis API key is required"
      (first_set [of_nonempty explicit; self_apikey self; Monitis_apikey c;
                  os_environ c !! apikey_env_name c])
  ∧ credential_secretkey explicit self c
    = key_or_raise "The Monitis secret key is required"
        (first_set [of_nonempty explicit; self_secretkey self;
                    Monitis_secretkey c;
                    os_environ c !! secretkey_env_name c])
  ∧ Monitis_resolve_apikey self c
    = key_or_raise "The Monitis API key is required"
        (first_set [self_apikey self; Monitis_apikey c;
                    os_environ c !! apikey_env_name c])
  ∧ Monitis_resolve_secretkey self c
    = key_or_raise "The Monitis secret key is required"
        (first_set [self_secretkey self; Monitis_secretkey c;
                    os_environ c !! secretkey_env_name c])
  ∧ resolve_apikey c
    = key_or_raise "The Monitis API key is required"
        (first_set [Monitis_apikey c; os_environ c !! apikey_env_name c])
  ∧ resolve_secretkey c
    = key_or_raise "The Monitis secret key is required"
        (first_set [Monitis_secretkey c;
                    os_environ c !! secretkey_env_name c])
  ∧ apikey_env_name c
    = (if Monitis_sandbox c then "MONITIS_SANDBOX_APIKEY"
       else "MONITIS_APIKEY")
  ∧ secretkey_env_name c
    = (if Monitis_sandbox c then "MONITIS_SANDBOX_SECRETKEY"
       else "MONITIS_SECRETKEY")
  ∧ MonitisError "The Monitis API key is required"
    ≠ MonitisError "The Monitis secret key is required".
Proof.
  unfold credential_apikey, credential_secretkey.
  unfold Monitis_resolve_apikey, Monitis_resolve_secretkey.
  rewrite !or_else_nonempty, resolve_apikey_env, resolve_secretkey_env.
  unfold first_set, key_or_raise.
  repeat split; try discriminate;
    repeat match goal with
           | |- context [of_nonempty ?x] => destruct (of_nonempty x)
           | |- context [self_apikey ?x] => destruct (self_apikey x)
           | |- context [self_secretkey ?x] => destruct (self_secretkey x)
           | |- context [Monitis_apikey ?x] => destruct (Monitis_apikey x)
           | |- context [Monitis_secretkey ?x] =>
               destruct (Monitis_secretkey x)
           | |- context [os_environ ?x !! ?k] => destruct (os_environ x !! k)
           end; reflexivity.
Qed.

(** C4 as stated fails: with the class-level API key set to the empty
    string and a key in the environment, the first non-empty source is the
    environment's, yet resolution returns the empty class-level value. *)
Lemma empty_class_apikey_wins :
  first_nonempty (apikey_sources None example_instance empty_class_apikey)
  = Some "k"
  ∧ credential_apikey None example_instance empty_class_apikey = Ok ""
  ∧ Monitis_resolve_apikey example_instance empty_class_apikey = Ok ""
  ∧ resolve_apikey empty_class_apikey = Ok "".
Proof. by vm_compute. Qed.


(** ** validate_kwargs *)

Lemma is_None_true (v : value) : is_None v = true ↔ v = VNone.
Proof. destruct v; simpl; split; congruence. Qed.

Lemma is_None_false (v : value) : is_None v = false ↔ v ≠ VNone.
Proof. destruct v; simpl; split; congruence. Qed.

Lemma pop_either_spec (lc cc : string) (kwargs : gmap string value) :
  ∀ v kwargs',
    pop_either lc cc kwargs = (v, kwargs') →
    (∀ k, ¬ spelling (lc, cc) k → kwargs' !! k = kwargs !! k)
    ∧ (∀ k x, kwargs' !! k = Some x → kwargs !! k = Some x)
    ∧ (v ≠ VNone → kwargs !! lc = Some v ∨ kwargs !! cc = Some v)
    ∧ (v = VNone → ¬ supplied_by kwargs (lc, cc)).
Proof.
  intros v kwargs'. unfold pop_either, pop, spelling, supplied_by. simpl.
  destruct (is_None (default VNone (kwargs !! lc))) eqn:Hlc.
  - apply is_None_true in Hlc. intros [= <- <-].
    split; [|split; [|split]].
    + intros k Hk. rewrite !lookup_delete_ne; [done|intuition..].
    + intros k x Hx.
      apply lookup_delete_Some in Hx as [_ Hx].
      by apply lookup_delete_Some in Hx as [_ Hx].
    + intros Hv. right.
      destruct (decide (lc = cc)) as [->|Hne].
      * by rewrite lookup_delete_eq in Hv.
      * rewrite lookup_delete_ne in Hv |- * by done.
        destruct (kwargs !! cc); simpl in *; congruence.
    + intros Hv (x & Hx & [Hl|Hc]).
      * rewrite Hl in Hlc. simpl in Hlc. done.
      * destruct (decide (lc = cc)) as [->|Hne].
        -- rewrite Hc in Hlc. simpl in Hlc. done.
        -- rewrite lookup_delete_ne, Hc in Hv by done. simpl in Hv. done.
  - apply is_None_false in Hlc. intros [= <- <-].
    split; [|split; [|split]].
    + intros k Hk. rewrite lookup_delete_ne; [done|intuition].
    + intros k x Hx. by apply lookup_delete_Some in Hx as [_ Hx].
    + intros _. left. destruct (kwargs !! lc); simpl in *; congruence.
    + done.
Qed.

Lemma supplied_by_subseteq (kw kw' : gmap string value) e :
  (∀ k x, kw' !! k = Some x → kw !! k = Some x) →
  supplied_by kw' e → supplied_by kw e.
Proof. intros Hsub (v & Hv & [?|?]); exists v; auto. Qed.

Lemma supplied_by_agree (kw kw' : gmap string value) e :
  (∀ k, spelling e k → kw' !! k = kw !! k) →
  supplied_by kw e → supplied_by kw' e.
Proof.
  intros Hag (v & Hv & Hk). exists v. split; [done|].
  rewrite !Hag by (unfold spelling; auto). done.
Qed.

(** What the loop over the required entries does, for entries that share
    no spelling. *)
Lemma required_loop_spec (items : list (string * string)) :
  ∀ kw res,
    all_apart items →
    match required_loop items kw res with
    | Ok (kw', res') =>
        Forall (supplied_by kw) items
        ∧ (∀ k, (∀ e, e ∈ items → ¬ spelling e k) → kw' !! k = kw !! k)
        ∧ (∀ k x, kw' !! k = Some x → kw !! k = Some x)
        ∧ (∀ e, e ∈ items →
             ∃ v, res' !! e.2 = Some v
                  ∧ (kw !! e.1 = Some v ∨ kw !! e.2 = Some v))
        ∧ (∀ k, (∀ e, e ∈ items → k ≠ e.2) → res' !! k = res !! k)
    | Raise ex =>
        ∃ e, e ∈ items ∧ ¬ supplied_by kw e
             ∧ ex = MonitisError (e.1 +:+ " is required")
    end.
Proof.
  induction items as [|[lc cc] items IH]; intros kw res Hap.
  { simpl. repeat split; auto. intros e He. by apply elem_of_nil in He. }
  destruct Hap as [Hhead Hap]. cbn [required_loop].
  destruct (pop_either lc cc kw) as [v kw1] eqn:Hpop.
  apply pop_either_spec in Hpop as (Hoff & Hsub & Hfrom & Hnone).
  destruct (is_None v) eqn:Hv.
  { apply is_None_true in Hv. exists (lc, cc).
    split; [apply elem_of_cons; auto|]. split; auto. }
  apply is_None_false in Hv.
  specialize (IH kw1 (<[cc := v]> res) Hap).
  destruct (required_loop items kw1 (<[cc:=v]> res)) as [[kw' res']|ex].
  - destruct IH as (Hall & Hkw & Hsub' & Hres & Hkeep).
    split; [|split; [|split; [|split]]].
    + constructor.
      * exists v. split; [done|]. by apply Hfrom.
      * eapply Forall_impl; [exact Hall|].
        intros e. by apply supplied_by_subseteq.
    + intros k Hk. rewrite Hkw.
      * apply Hoff. apply Hk, elem_of_cons. auto.
      * intros e He. apply Hk, elem_of_cons. auto.
    + intros k x Hx. auto.
    + intros e [->|He]%elem_of_cons.
      * exists v. split; [|by apply Hfrom]. simpl. rewrite Hkeep.
        { apply lookup_insert_eq. }
        intros e He Heq. rewrite Forall_forall in Hhead.
        apply (Hhead e He cc); unfold spelling; auto.
      * destruct (Hres e He) as (x & Hx & Hk). exists x.
        split; [done|]. destruct Hk as [?|?]; auto.
    + intros k Hk. rewrite Hkeep.
      * apply lookup_insert_ne. intros <-.
        by apply (Hk (lc, cc)); [apply elem_of_cons; auto|].
      * intros e He. apply Hk, elem_of_cons. auto.
  - destruct IH as (e & He & Hno & ->). exists e.
    split; [apply elem_of_cons; auto|]. split; [|done].
    intros Hsup. apply Hno. eapply supplied_by_agree; [|exact Hsup].
    intros k Hk. apply Hoff. intros Hk'.
    rewrite Forall_forall in Hhead. by apply (Hhead e He k).
Qed.

(** What the loop over the optional entries does. *)
Lemma optional_loop_spec (items : list (string * string)) :
  ∀ kw res kw' res',
    all_apart items →
    optional_loop items kw res = (kw', res') →
    (∀ k, (∀ e, e ∈ items → ¬ spelling e k) → kw' !! k = kw !! k)
    ∧ (∀ k x, kw' !! k = Some x → kw !! k = Some x)
    ∧ (∀ e, e ∈ items → supplied_by kw e →
         ∃ v, res' !! e.2 = Some v
              ∧ (kw !! e.1 = Some v ∨ kw !! e.2 = Some v))
    ∧ (∀ k x, res' !! k = Some x →
         res !! k = Some x
         ∨ ∃ e, e ∈ items ∧ k = e.2
                ∧ (kw !! e.1 = Some x ∨ kw !! e.2 = Some x))
    ∧ (∀ k, is_Some (res !! k) → is_Some (res' !! k))
    ∧ (∀ k, (∀ e, e ∈ items → k ≠ e.2) → res' !! k = res !! k).
Proof.
  induction items as [|[lc cc] items IH]; intros kw res kw' res' Hap.
  { simpl. intros [= <- <-]. repeat split; auto.
    intros e He. by apply elem_of_nil in He. }
  destruct Hap as [Hhead Hap]. cbn [optional_loop].
  destruct (pop_either lc cc kw) as [v kw1] eqn:Hpop.
  apply pop_either_spec in Hpop as (Hoff & Hsub & Hfrom & Hnone).
  rewrite Forall_forall in Hhead.
  assert (Hag : ∀ e, e ∈ items → supplied_by kw e → supplied_by kw1 e).
  { intros e He. apply supplied_by_agree. intros k Hk. apply Hoff.
    intros Hk'. by apply (Hhead e He k). }
  destruct (is_None v) eqn:Hv.
  - apply is_None_true in Hv. intros Hloop.
    destruct (IH _ _ _ _ Hap Hloop)
      as (Hkw & Hsub' & Hres & Hval & Hkeys & Hkeep).
    split; [|split; [|split; [|split; [|split]]]].
    + intros k Hk. rewrite Hkw.
      * apply Hoff. apply Hk, elem_of_cons. auto.
      * intros e He. apply Hk, elem_of_cons. auto.
    + auto.
    + intros e [->|He]%elem_of_cons Hsup; [by destruct Hnone|].
      destruct (Hres e He (Hag e He Hsup)) as (x & Hx & Hk).
      exists x. split; [done|]. destruct Hk; auto.
    + intros k x Hx. destruct (Hval k x Hx) as [?|(e & He & -> & Hk)]; auto.
      right. exists e. split; [apply elem_of_cons; auto|].
      split; [done|]. destruct Hk; auto.
    + done.
    + intros k Hk. apply Hkeep. intros e He. apply Hk, elem_of_cons. auto.
  - apply is_None_false in Hv. intros Hloop.
    destruct (IH _ _ _ _ Hap Hloop)
      as (Hkw & Hsub' & Hres & Hval & Hkeys & Hkeep).
    split; [|split; [|split; [|split; [|split]]]].
    + intros k Hk. rewrite Hkw.
      * apply Hoff. apply Hk, elem_of_cons. auto.
      * intros e He. apply Hk, elem_of_cons. auto.
    + auto.
    + intros e [->|He]%elem_of_cons Hsup.
      * exists v. split; [|by apply Hfrom]. simpl. rewrite Hkeep.
        { apply lookup_insert_eq. }
        intros e He Heq. apply (Hhead e He cc); unfold spelling; auto.
      * destruct (Hres e He (Hag e He Hsup)) as (x & Hx & Hk).
        exists x. split; [done|]. destruct Hk; auto.
    + intros k x Hx. destruct (Hval k x Hx) as [Hin|(e & He & -> & Hk)].
      * destruct (decide (cc = k)) as [<-|Hne].
        -- rewrite lookup_insert_eq in Hin. injection Hin as <-.
           right. exists (lc, cc). split; [apply elem_of_cons; auto|].
           split; [done|]. by apply Hfrom.
        -- rewrite lookup_insert_ne in Hin by done. auto.
      * right. exists e. split; [apply elem_of_cons; auto|].
        split; [done|]. destruct Hk; auto.
    + intros k Hk. apply Hkeys.
      destruct (decide (cc = k)) as [<-|Hne].
      * rewrite lookup_insert_eq. eauto.
      * by rewrite lookup_insert_ne.
    + intros k Hk. rewrite Hkeep.
      * apply lookup_insert_ne. intros <-.
        by apply (Hk (lc, cc)); [apply elem_of_cons; auto|].
      * intros e He. apply Hk, elem_of_cons. auto.
Qed.

Lemma names_to_dict_ok (words : list string) :
  ∀ temp, Forall (λ w, w ≠ "") words → ∃ d, names_to_dict words temp = Ok d.
Proof.
  induction words as [|word rest IH]; intros temp Hne; simpl; [eauto|].
  inversion Hne as [|?? Hw Hrest]; subst.
  rewrite camel2under_eq by done. simpl. by apply IH.
Qed.

Lemma underscore_injective_cons (word : string) (rest : list string) :
  underscore_injective (word :: rest) → underscore_injective rest.
Proof. intros Hinj a b Ha Hb. apply Hinj; apply elem_of_cons; auto. Qed.

Lemma names_to_dict_lookup (words : list string) :
  ∀ temp d,
    names_to_dict words temp = Ok d →
    underscore_injective words →
    ∀ lc cc,
      d !! lc = Some cc
      ↔ entry_of words (lc, cc)
        ∨ (temp !! lc = Some cc ∧ ∀ w, ¬ entry_of words (lc, w)).
Proof.
  unfold entry_of.
  induction words as [|word rest IH]; intros temp d Hd Hinj lc cc; simpl.
  { injection Hd as <-. split; [|by intros [[Hin _]|[? _]];
      [apply elem_of_nil in Hin|]].
    intros Hl. right. split; [done|]. intros w [Hin _].
    by apply elem_of_nil in Hin. }
  simpl in Hd. destruct (camel2under word) as [lc0|] eqn:Hword; [|done].
  simpl in Hd.
  rewrite (IH _ _ Hd (underscore_injective_cons _ _ Hinj) lc cc). simpl.
  split.
  - intros [[Hin Hcc]|[Hl Hno]].
    + left. split; [apply elem_of_cons; auto|done].
    + destruct (decide (lc0 = lc)) as [->|Hne].
      * rewrite lookup_insert_eq in Hl. injection Hl as <-.
        left. split; [apply elem_of_cons; auto|done].
      * rewrite lookup_insert_ne in Hl by done. right. split; [done|].
        intros w [[->|Hin]%elem_of_cons Hw]; [congruence|].
        by apply (Hno w).
  - intros [[[->|Hin]%elem_of_cons Hcc]|[Hl Hno]].
    + destruct (decide (word ∈ rest)) as [Hin|Hnin]; [by left|].
      right. assert (lc0 = lc) as -> by congruence.
      split; [apply lookup_insert_eq|].
      intros w [Hin Hw]. apply Hnin.
      rewrite <-(Hinj w word); [done|apply elem_of_cons; auto..|congruence].
    + by left.
    + right. assert (lc0 ≠ lc) as Hne.
      { intros ->. apply (Hno word). split; [apply elem_of_cons; auto|done]. }
      rewrite lookup_insert_ne by done. split; [done|].
      intros w [Hin Hw]. apply (Hno w). split; [apply elem_of_cons; auto|done].
Qed.

Lemma as_dict_entries (words : list string) (d : gmap string string) :
  as_dict (NameList words) = Ok d →
  underscore_injective words →
  ∀ e, d !! e.1 = Some e.2 ↔ entry_of words e.
Proof.
  intros Hd Hinj [lc cc]. simpl in *.
  rewrite (names_to_dict_lookup _ _ _ Hd Hinj). rewrite lookup_empty.
  split; [intros [?|[? _]]; [done|discriminate]|by left].
Qed.

Section dict_items.
Context `{Runtime}.

Lemma elem_of_dict_items {V} (m : gmap string V) (k : string) (v : V) :
  (k, v) ∈ dict_items m ↔ m !! k = Some v.
Proof. by rewrite dict_items_perm, elem_of_map_to_list. Qed.

Lemma NoDup_dict_items {V} (m : gmap string V) : NoDup (dict_items m).
Proof. rewrite dict_items_perm. apply NoDup_map_to_list. Qed.

Lemma dict_items_empty {V} : dict_items (∅ : gmap string V) = [].
Proof.
  apply Permutation_nil_r. by rewrite dict_items_perm, map_to_list_empty.
Qed.

Lemma dict_items_singleton {V} (k : string) (v : V) :
  dict_items ({[ k := v ]} : gmap string V) = [(k, v)].
Proof.
  apply Permutation_singleton_r.
  by rewrite dict_items_perm, map_to_list_singleton.
Qed.
End dict_items.

Lemma all_apart_intro (items : list (string * string)) :
  NoDup items →
  (∀ e1 e2, e1 ∈ items → e2 ∈ items → e1 ≠ e2 → apart e1 e2) →
  all_apart items.
Proof.
  induction 1 as [|e items Hnin Hnd IH]; intros Hap; simpl; [done|].
  split.
  - apply Forall_forall. intros e' He'. apply Hap.
    + apply elem_of_cons; auto.
    + apply elem_of_cons; auto.
    + intros ->. done.
  - apply IH. intros e1 e2 H1 H2. apply Hap; apply elem_of_cons; auto.
Qed.

Lemma entries_apart (words : list string) (e1 e2 : string * string) :
  underscore_injective words →
  entry_of words e1 → entry_of words e2 → e1.2 ≠ e2.2 → apart e1 e2.
Proof.
  intros Hinj [Hin1 Hc1] [Hin2 Hc2] Hne k [-> | ->] [Hk|Hk].
  - apply Hne, Hinj; [done..|congruence].
  - apply Hne, Hinj; [done..|].
    rewrite Hc1, Hk. symmetry. eapply camel2under_idempotent.
    rewrite <-Hk. exact Hc1.
  - apply Hne, Hinj; [done..|].
    rewrite Hc2, <-Hk. eapply camel2under_idempotent.
    rewrite Hk. exact Hc2.
  - done.
Qed.

Lemma entry_of_app_l (req opt : list string) e :
  entry_of req e → entry_of (req ++ opt) e.
Proof. intros [??]. split; [apply elem_of_app; auto|done]. Qed.

Lemma entry_of_app_r (req opt : list string) e :
  entry_of opt e → entry_of (req ++ opt) e.
Proof. intros [??]. split; [apply elem_of_app; auto|done]. Qed.

Lemma entry_of_inj (words : list string) (e1 e2 : string * string) :
  entry_of words e1 → entry_of words e2 → e1.2 = e2.2 → e1 = e2.
Proof.
  destruct e1 as [l1 c1], e2 as [l2 c2]. simpl.
  intros [_ H1] [_ H2] ->. simpl in *. congruence.
Qed.

Lemma dict_items_all_apart `{Runtime} (words : list string)
    (d : gmap string string) :
  as_dict (NameList words) = Ok d →
  underscore_injective words →
  all_apart (dict_items d).
Proof.
  intros Hd Hinj. apply all_apart_intro; [apply NoDup_dict_items|].
  intros [l1 c1] [l2 c2] H1 H2 Hne.
  apply elem_of_dict_items in H1, H2.
  apply (as_dict_entries _ _ Hd Hinj (l1, c1)) in H1.
  apply (as_dict_entries _ _ Hd Hinj (l2, c2)) in H2.
  apply (entries_apart words); [done..|].
  intros Heq. apply Hne. by apply (entry_of_inj words).
Qed.


Lemma validate_kwargs_unfold `{Runtime} (required optional : namespec)
    (dr dopt : gmap string string) (kwargs : gmap string value) :
  as_dict required = Ok dr →
  as_dict optional = Ok dopt →
  validate_kwargs required optional kwargs
  = match required_loop (dict_items dr) kwargs ∅ with
    | Ok (kw1, res1) =>
        Ok ((optional_loop (dict_items dopt) kw1 res1).1
            ∪ (optional_loop (dict_items dopt) kw1 res1).2)
    | Raise ex => Raise ex
    end.
Proof.
  intros Hr Ho. unfold validate_kwargs. rewrite Hr, Ho. simpl.
  destruct (required_loop (dict_items dr) kwargs ∅) as [[kw1 res1]|ex];
    simpl; [|done].
  by destruct (optional_loop (dict_items dopt) kw1 res1).
Qed.

Lemma underscore_injective_app_l (req opt : list string) :
  underscore_injective (req ++ opt) → underscore_injective req.
Proof. intros Hinj a b Ha Hb. apply Hinj; apply elem_of_app; auto. Qed.

Lemma underscore_injective_app_r (req opt : list string) :
  underscore_injective (req ++ opt) → underscore_injective opt.
Proof. intros Hinj a b Ha Hb. apply Hinj; apply elem_of_app; auto. Qed.

Section validate_kwargs.
Context `{Runtime}.
Variables (required optional : list string).
Variable kwargs : gmap string value.
Hypothesis names_nonempty : Forall (λ w, w ≠ "") (required ++ optional).
Hypothesis names_injective : underscore_injective (required ++ optional).

Lemma validate_kwargs_raises :
  (∃ e, entry_of required e ∧ ¬ supplied_by kwargs e) →
  ∃ e, entry_of required e ∧ ¬ supplied_by kwargs e
       ∧ validate_kwargs (NameList required) (NameList optional) kwargs
         = Raise (MonitisError (e.1 +:+ " is required")).
Proof.
  intros (e & He & Hno).
  apply Forall_app in names_nonempty as [Hnr Hno'].
  destruct (names_to_dict_ok required ∅ Hnr) as [dr Hdr].
  destruct (names_to_dict_ok optional ∅ Hno') as [dopt Hdo].
  pose proof (underscore_injective_app_l _ _ names_injective) as Hir.
  rewrite (validate_kwargs_unfold _ _ dr dopt) by done.
  pose proof (required_loop_spec (dict_items dr) kwargs ∅
                (dict_items_all_apart required dr Hdr Hir)) as Hloop.
  destruct (required_loop (dict_items dr) kwargs ∅) as [[kw1 res1]|ex].
  - destruct Hloop as (Hall & _). exfalso. apply Hno.
    rewrite Forall_forall in Hall. apply Hall.
    destruct e as [lc cc]. apply elem_of_dict_items.
    by apply (as_dict_entries required dr Hdr Hir (lc, cc)).
  - destruct Hloop as ([lc cc] & Hin & Hnot & ->).
    exists (lc, cc). split; [|done].
    apply elem_of_dict_items in Hin.
    by apply (as_dict_entries required dr Hdr Hir (lc, cc)).
Qed.

Lemma validate_kwargs_returns :
  (∀ e, entry_of required e → supplied_by kwargs e) →
  ∃ res,
    validate_kwargs (NameList required) (NameList optional) kwargs = Ok res
    ∧ (∀ e, entry_of required e →
         ∃ v, res !! e.2 = Some v
              ∧ (kwargs !! e.1 = Some v ∨ kwargs !! e.2 = Some v))
    ∧ (∀ e, entry_of optional e → supplied_by kwargs e →
         ∃ v, res !! e.2 = Some v
              ∧ (kwargs !! e.1 = Some v ∨ kwargs !! e.2 = Some v))
    ∧ (∀ k, (∀ e, entry_of (required ++ optional) e → ¬ spelling e k) →
         res !! k = kwargs !! k).
Proof.
  intros Hsup.
  apply Forall_app in names_nonempty as [Hnr Hno'].
  destruct (names_to_dict_ok required ∅ Hnr) as [dr Hdr].
  destruct (names_to_dict_ok optional ∅ Hno') as [dopt Hdo].
  pose proof (underscore_injective_app_l _ _ names_injective) as Hir.
  pose proof (underscore_injective_app_r _ _ names_injective) as Hio.
  rewrite (validate_kwargs_unfold _ _ dr dopt) by done.
  pose proof (required_loop_spec (dict_items dr) kwargs ∅
                (dict_items_all_apart required dr Hdr Hir)) as Hloop.
  assert (Hitr : ∀ e, e ∈ dict_items dr ↔ entry_of required e).
  { intros [lc cc]. rewrite elem_of_dict_items.
    apply (as_dict_entries required dr Hdr Hir (lc, cc)). }
  assert (Hito : ∀ e, e ∈ dict_items dopt ↔ entry_of optional e).
  { intros [lc cc]. rewrite elem_of_dict_items.
    apply (as_dict_entries optional dopt Hdo Hio (lc, cc)). }
  destruct (required_loop (dict_items dr) kwargs ∅) as [[kw1 res1]|ex].
  2:{ destruct Hloop as (e & Hin & Hnot & _). destruct Hnot.
      by apply Hsup, Hitr. }
  destruct Hloop as (_ & Hkw1 & Hsub1 & Hres1 & Hkeep1).
  destruct (optional_loop (dict_items dopt) kw1 res1) as [kw2 res2] eqn:Hol.
  apply optional_loop_spec in Hol
    as (Hkw2 & Hsub2 & Hres2 & Hval2 & Hkeys2 & Hkeep2);
    [|by apply (dict_items_all_apart optional)].
  simpl. eexists. split; [done|].
  (* a binding of the result under a provider name comes from the caller *)
  assert (Hout : ∀ e v,
    entry_of (required ++ optional) e → res2 !! e.2 = Some v →
    (res1 !! e.2 = Some v →
     kwargs !! e.1 = Some v ∨ kwargs !! e.2 = Some v) →
    ∃ x, (kw2 ∪ res2) !! e.2 = Some x
         ∧ (kwargs !! e.1 = Some x ∨ kwargs !! e.2 = Some x)).
  { intros e v He Hv Hfrom1.
    destruct (kw2 !! e.2) as [x|] eqn:Hx.
    - exists x. split; [by apply lookup_union_Some_l|]. right. auto.
    - exists v. split; [by rewrite lookup_union_r|].
      destruct (Hval2 _ _ Hv) as [Hold|(e' & He' & Heq & Hk)]; [auto|].
      apply Hito in He'.
      assert (e' = e) as ->.
      { apply (entry_of_inj (required ++ optional));
          [by apply entry_of_app_r|done|done]. }
      destruct Hk as [Hk|Hk]; apply Hsub1 in Hk; auto. }
  split; [|split].
  - intros e He. destruct (Hres1 e (proj2 (Hitr e) He)) as (v & Hv & Hk).
    destruct (Hkeys2 e.2 (ex_intro _ v Hv)) as [v' Hv'].
    apply (Hout e v'); [by apply entry_of_app_l|done|].
    intros Hv1. rewrite Hv in Hv1. by injection Hv1 as <-.
  - intros e He Hs.
    destruct (decide (e.2 ∈ required)) as [Hin|Hnin].
    + (* the name is required as well *)
      assert (entry_of required e) as Her by (split; [done|apply He]).
      destruct (Hres1 e (proj2 (Hitr e) Her)) as (v & Hv & Hk).
      destruct (Hkeys2 e.2 (ex_intro _ v Hv)) as [v' Hv'].
      apply (Hout e v'); [by apply entry_of_app_r|done|].
      intros Hv1. rewrite Hv in Hv1. by injection Hv1 as <-.
    + assert (Hs1 : supplied_by kw1 e).
      { eapply supplied_by_agree; [|exact Hs].
        intros k Hk. apply Hkw1. intros e' He' Hk'.
        apply Hitr in He'.
        assert (Hap : apart e e').
        { apply (entries_apart (required ++ optional));
            [done|by apply entry_of_app_r|by apply entry_of_app_l|].
          intros Heq. apply Hnin. rewrite Heq. apply He'. }
        exact (Hap k Hk Hk'). }
      destruct (Hres2 e (proj2 (Hito e) He) Hs1) as (v & Hv & Hk).
      apply (Hout e v); [by apply entry_of_app_r|done|].
      intros Hv1. rewrite Hkeep1, lookup_empty in Hv1; [done|].
      intros e' He' Heq. apply Hitr in He'. apply Hnin.
      rewrite Heq. apply He'.
  - intros k Hk. assert (res2 !! k = None) as Hnone.
    { rewrite Hkeep2, Hkeep1; [apply lookup_empty|..].
      - intros e He ->. apply (Hk e); [|by right].
        by apply entry_of_app_l, Hitr.
      - intros e He ->. apply (Hk e); [|by right].
        by apply entry_of_app_r, Hito. }
    rewrite lookup_union_l by done. rewrite Hkw2, Hkw1; [done|..].
    + intros e He. by apply Hk, entry_of_app_l, Hitr.
    + intros e He. by apply Hk, entry_of_app_r, Hito.
Qed.
End validate_kwargs.

Lemma underscore_injective_NoDup (words : list string) :
  NoDup (camel2under <$> words) → underscore_injective words.
Proof.
  induction words as [|w words IH]; intros Hnd a b Ha Hb Heq.
  { by apply elem_of_nil in Ha. }
  rewrite fmap_cons in Hnd. apply NoDup_cons in Hnd as [Hnin Hnd].
  apply elem_of_cons in Ha as [->|Ha], Hb as [->|Hb]; [done| | |by apply IH].
  - destruct Hnin. rewrite Heq. by apply list_elem_of_fmap_2.
  - destruct Hnin. rewrite <-Heq. by apply list_elem_of_fmap_2.
Qed.

Lemma agent_info_names :
  Forall (λ w : string, w ≠ "") (["agentId"] ++ ["loadTests"])
  ∧ underscore_injective (["agentId"] ++ ["loadTests"]).
Proof.
  split; [by repeat constructor|].
  apply underscore_injective_NoDup, (bool_decide_unpack _).
  vm_compute. exact I.
Qed.

(** C6 (as amended): for required and optional names that are non-empty and
    whose underscore forms are pairwise different, the normalizer returns,
    when every required name is supplied (with a value other than [None])
    under one of its two spellings, a mapping that holds every required
    provider-format name with a value supplied under one of its spellings,
    every optional name so supplied, and every argument that is no spelling
    of a listed name unchanged; when a required name is supplied under
    neither spelling it raises the validation error that names such a name in
    underscore form.  With required agentId and optional loadTests,
    agent_id = 5 yields agentId = 5, and a call with neither agent_id nor
    agentId fails naming agent_id. *)
Theorem validate_kwargs_normalizes `{Runtime} :
  (∀ (required optional : list string) (kwargs : gmap string value),
     Forall (λ w, w ≠ "") (required ++ optional) →
     underscore_injective (required ++ optional) →
     ((∀ e, entry_of required e → supplied_by kwargs e) →
      ∃ res,
        validate_kwargs (NameList required) (NameList optional) kwargs
        = Ok res
        ∧ (∀ e, entry_of required e →
             ∃ v, res !! e.2 = Some v
                  ∧ (kwargs !! e.1 = Some v ∨ kwargs !! e.2 = Some v))
        ∧ (∀ e, entry_of optional e → supplied_by kwargs e →
             ∃ v, res !! e.2 = Some v
                  ∧ (kwargs !! e.1 = Some v ∨ kwargs !! e.2 = Some v))
        ∧ (∀ k, (∀ e, entry_of (required ++ optional) e → ¬ spelling e k) →
             res !! k = kwargs !! k))
     ∧ ((∃ e, entry_of required e ∧ ¬ supplied_by kwargs e) →
        ∃ e, entry_of required e ∧ ¬ supplied_by kwargs e
             ∧ validate_kwargs (NameList required) (NameList optional) kwargs
               = Raise (MonitisError (e.1 +:+ " is required"))))
  ∧ validate_kwargs (NameList ["agentId"]) (NameList ["loadTests"])
      {[ "agent_id" := VStr "5" ]}
    = Ok {[ "agentId" := VStr "5" ]}
  ∧ (∀ kwargs : gmap string value,
       kwargs !! "agent_id" = None → kwargs !! "agentId" = None →
       validate_kwargs (NameList ["agentId"]) (NameList ["loadTests"]) kwargs
       = Raise (MonitisError "agent_id is required")).
Proof.
  split; [|split].
  - intros required optional kwargs Hne Hinj. split.
    + by apply validate_kwargs_returns.
    + by apply validate_kwargs_raises.
  - unfold validate_kwargs.
    change (as_dict (NameList ["agentId"]))
      with (Ok ({[ "agent_id" := "agentId" ]} : gmap string string)).
    change (as_dict (NameList ["loadTests"]))
      with (Ok ({[ "load_tests" := "loadTests" ]} : gmap string string)).
    cbn [bind]. rewrite !dict_items_singleton. by vm_compute.
  - intros kwargs Hlc Hcc.
    destruct agent_info_names as [Hne Hinj].
    destruct (validate_kwargs_raises ["agentId"] ["loadTests"] kwargs
                Hne Hinj) as ([lc cc] & [Hin Hlc'] & _ & ->).
    + exists ("agent_id", "agentId"). split; [split|].
      * by apply list_elem_of_singleton.
      * done.
      * intros (v & _ & [Hv|Hv]); simpl in Hv; congruence.
    + simpl in *. apply list_elem_of_singleton in Hin as ->.
      vm_compute in Hlc'. by injection Hlc' as <-.
Qed.

Lemma validate_kwargs_normalizes_witness :
  ∃ res,
    validate_kwargs (NameList ["agentId"]) (NameList ["loadTests"])
      {[ "agentId" := VStr "5"; "load_tests" := VBool true;
         "page" := VInt 2 ]} = Ok res
    ∧ res !! "page" = Some (VInt 2).
Proof.
  pose (kwargs := ({[ "agentId" := VStr "5"; "load_tests" := VBool true;
                      "page" := VInt 2 ]} : gmap string value)).
  destruct (proj1 (proj1 validate_kwargs_normalizes
                     ["agentId"] ["loadTests"] kwargs
                     (proj1 agent_info_names) (proj2 agent_info_names)))
    as (res & Hres & _ & _ & Hother).
  - intros [lc cc] [Hin Hlc]. simpl in *.
    apply list_elem_of_singleton in Hin as ->.
    exists (VStr "5"). split; [discriminate|]. right. reflexivity.
  - exists res. split; [exact Hres|].
    rewrite Hother; [reflexivity|].
    intros [lc cc] [Hin Hlc] [Hk|Hk]; simpl in Hlc, Hk.
    + apply elem_of_app in Hin as [Hin|Hin];
        apply list_elem_of_singleton in Hin; simpl in Hin; subst cc;
        vm_compute in Hlc; injection Hlc as <-; discriminate Hk.
    + apply elem_of_app in Hin as [Hin|Hin];
        apply list_elem_of_singleton in Hin; simpl in Hin; subst cc;
        discriminate Hk.
Defined.

(** C6 as stated fails: two required names with the same underscore form
    share one dictionary entry, so only the later one reaches the result. *)
Lemma validate_kwargs_colliding_names :
  supplied_by {[ "agent_id" := VStr "5" ]} ("agent_id", "agentId")
  ∧ validate_kwargs (NameList ["agentId"; "agentID"]) (NameList [])
      {[ "agent_id" := VStr "5" ]}
    = Ok {[ "agentID" := VStr "5" ]}
  ∧ ({[ "agentID" := VStr "5" ]} : gmap string value) !! "agentId" = None.
Proof.
  split; [|by vm_compute].
  exists (VStr "5"). split; [discriminate|]. left. reflexivity.
Qed.


(** ** checksum *)

Lemma append_cons (x : ascii) (a b : string) :
  String x a +:+ b = String x (a +:+ b).
Proof. reflexivity. Qed.

Lemma append_assoc (a b c : string) : (a +:+ b) +:+ c = a +:+ (b +:+ c).
Proof.
  induction a as [|x a IH]; [done|]. rewrite !append_cons. by f_equal.
Qed.

Lemma append_nil_r (a : string) : a +:+ "" = a.
Proof.
  induction a as [|x a IH]; [done|]. rewrite append_cons. by f_equal.
Qed.

Lemma append_length (a b : string) :
  String.length (a +:+ b) = (String.length a + String.length b)%nat.
Proof.
  induction a as [|x a IH]; [done|]. rewrite append_cons. simpl.
  by rewrite IH.
Qed.

(** The loop of the method and the joins of the function build the same
    string. *)
Lemma param_string_loop_eq (args : list (string * value)) :
  param_string_loop args = param_string args.
Proof.
  unfold param_string_loop.
  enough (∀ acc,
    foldl (λ param_string '(key, value), (param_string +:+ key) +:+ str value)
          acc args = acc +:+ param_string args) as Hgen by apply Hgen.
  induction args as [|[k v] args IH]; intros acc; cbn [foldl param_string].
  - by rewrite append_nil_r.
  - rewrite IH. by rewrite !append_assoc.
Qed.

(** Sorting by key does not depend on the order in which the dictionary
    enumerated its items: any listing of the items that is sorted by key is
    the one [sorted] returns. *)
Lemma sorted_dict_items_unique `{Runtime} (m : gmap string value)
    (l : list (string * value)) :
  l ≡ₚ map_to_list m → StronglySorted item_le l → sorted (dict_items m) = l.
Proof.
  intros Hperm Hsorted. unfold sorted.
  apply (StronglySorted_unique_strong item_le).
  - intros [k1 v1] [k2 v2] H1 H2 Hle1 Hle2.
    unfold item_le in *. simpl in *.
    assert (k1 = k2) as -> by (by apply (anti_symm String.le)).
    rewrite merge_sort_Permutation, dict_items_perm in H1.
    rewrite Hperm in H2.
    apply elem_of_map_to_list in H1, H2. congruence.
  - apply StronglySorted_merge_sort; apply _.
  - done.
  - by rewrite merge_sort_Permutation, dict_items_perm.
Qed.


(** *** Length of the signature *)

Lemma be_bytes_length (n : nat) (x : Z) : length (SHA1.be_bytes n x) = n.
Proof. unfold SHA1.be_bytes. by rewrite length_fmap, length_seq. Qed.

Lemma sha1_digest_length (msg : list Z) : length (SHA1.digest msg) = 20%nat.
Proof.
  unfold SHA1.digest.
  destruct (foldl SHA1.compress SHA1.init _) as [[[[h0 h1] h2] h3] h4].
  by rewrite !length_app, !be_bytes_length.
Qed.

Lemma hmac_digest_length (key msg : list Z) :
  length (HMAC.digest key msg) = 20%nat.
Proof. apply sha1_digest_length. Qed.

Lemma bytes_of_str_of_length (l : list Z) :
  length (bytes_of (str_of l)) = length l.
Proof.
  unfold bytes_of, str_of.
  by rewrite length_fmap, String.list_ascii_of_string_of_list_ascii,
    length_fmap.
Qed.

Lemma b64_groups_length_20 (bs : list Z) :
  length bs = 20%nat → length (b64_groups bs) = 28%nat.
Proof.
  intros Hlen.
  do 20 (destruct bs as [|? bs]; [discriminate Hlen|]).
  destruct bs; [reflexivity|discriminate Hlen].
Qed.

Lemma signature_length (key msg : string) :
  String.length (b64encode (hmac_sha1 key msg)) = 28%nat.
Proof.
  unfold b64encode, hmac_sha1.
  rewrite string_of_list_length. apply b64_groups_length_20.
  rewrite bytes_of_str_of_length. apply hmac_digest_length.
Qed.

Lemma prefix_of_length (p s : string) :
  prefix_of p s = true → (String.length p ≤ String.length s)%nat.
Proof.
  revert s. induction p as [|a p IH]; intros [|b s]; simpl; try done; try lia.
  intros [_ Hp]%andb_prop. apply IH in Hp. lia.
Qed.

Lemma occurs_in_length (needle haystack : string) :
  occurs_in needle haystack = true →
  (String.length needle ≤ String.length haystack)%nat.
Proof.
  induction haystack as [|b s IH]; simpl.
  - rewrite orb_false_r. apply prefix_of_length.
  - intros [Hp|Hs]%orb_prop.
    + by apply prefix_of_length in Hp.
    + apply IH in Hs. lia.
Qed.

(** *** What the two implementations compute *)

Lemma Monitis_checksum_explicit `{Runtime} (self : instance) (c : config)
    (kwargs : gmap string value) (secretkey : value) :
  kwargs !! "secretkey" = Some secretkey →
  Monitis_checksum self c kwargs
  = sign secretkey
      (param_string (sorted (dict_items (delete "secretkey" kwargs)))).
Proof.
  intros Hk. unfold Monitis_checksum. rewrite Hk. simpl.
  by rewrite param_string_loop_eq.
Qed.

Lemma checksum_explicit `{Runtime} (c : config)
    (kwargs : gmap string value) (secretkey : value) (ambient : string) :
  kwargs !! "secretkey" = Some secretkey →
  resolve_secretkey c = Ok ambient →
  checksum c kwargs
  = sign secretkey
      (param_string (sorted (dict_items (delete "secretkey" kwargs)))).
Proof.
  intros Hk Hamb. unfold checksum, pop. rewrite Hamb, Hk. done.
Qed.

(** The module-level function looks the ambient secret key up before it
    looks at its arguments. *)
Lemma checksum_needs_ambient_key `{Runtime} (c : config)
    (kwargs : gmap string value) (e : exn) :
  resolve_secretkey c = Raise e → checksum c kwargs = Raise e.
Proof. intros Hamb. unfold checksum. by rewrite Hamb. Qed.

(** Whenever the ambient secret key resolves, the two implementations agree
    on an explicitly supplied key. *)
Lemma checksum_agree `{Runtime} (self : instance) (c : config)
    (kwargs : gmap string value) (secretkey : value) (ambient : string) :
  kwargs !! "secretkey" = Some secretkey →
  resolve_secretkey c = Ok ambient →
  checksum c kwargs = Monitis_checksum self c kwargs.
Proof.
  intros Hk Hamb.
  by rewrite (checksum_explicit c kwargs secretkey ambient),
    (Monitis_checksum_explicit self c kwargs secretkey).
Qed.

Lemma signed_in_constructed :
  Monitis_init no_ambient_keys (Some "abc") (Some "secret") None VNone None
  = Ok signed_in.
Proof. reflexivity. Qed.

(** C3 (as amended): for a parameter set without the secret key and a
    secret key given with it, the checksum is the base64 encoding of the
    HMAC-SHA1 digest, keyed by the secret key, of the concatenation of each
    key immediately followed by its value, taken in lexicographic order of
    the keys; [Monitis.checksum] always returns it and the module-level
    [checksum] returns it whenever it returns.  The result is the same for
    any enumeration order of the dictionary, any instance and any process
    state.  It is 28 characters long, so a secret key of more than 28
    characters does not occur in it. *)
Theorem checksum_signs_sorted_parameters `{Runtime} (self : instance)
    (c : config) (params : gmap string value) (secretkey : string)
    (l : list (string * value)) :
  params !! "secretkey" = None →
  l ≡ₚ map_to_list params →
  StronglySorted item_le l →
  let signature := b64encode (hmac_sha1 secretkey (param_string l)) in
  Monitis_checksum self c (<["secretkey" := VStr secretkey]> params)
  = Ok signature
  ∧ (∀ ambient,
       resolve_secretkey c = Ok ambient →
       checksum c (<["secretkey" := VStr secretkey]> params) = Ok signature)
  ∧ (∀ (other : Runtime) self' c',
       @Monitis_checksum other self' c'
         (<["secretkey" := VStr secretkey]> params)
       = Ok signature)
  ∧ String.length signature = 28%nat
  ∧ ((28 < String.length secretkey)%nat →
     occurs_in secretkey signature = false).
Proof.
  intros Hfresh Hperm Hsorted signature.
  assert (Hany : ∀ (R : Runtime) self' c',
    @Monitis_checksum R self' c' (<["secretkey" := VStr secretkey]> params)
    = Ok signature).
  { intros R self' c'.
    rewrite (Monitis_checksum_explicit self' c' _ (VStr secretkey))
      by apply lookup_insert_eq.
    rewrite delete_insert_id by done.
    by rewrite (sorted_dict_items_unique params l). }
  split; [apply Hany|]. split; [|split; [apply Hany|split]].
  - intros ambient Hamb.
    rewrite (checksum_agree self c _ (VStr secretkey) ambient);
      [apply Hany|apply lookup_insert_eq|done].
  - apply signature_length.
  - intros Hlong. destruct (occurs_in secretkey signature) eqn:Hocc; [|done].
    apply occurs_in_length in Hocc. unfold signature in Hocc.
    rewrite signature_length in Hocc. lia.
Qed.

Lemma checksum_signs_sorted_parameters_witness :
  Monitis_checksum signed_in no_ambient_keys
    (<["secretkey" := VStr "secret"]> test_vector)
  = Ok "4v88BWyeIz0ztoUQzXsQVzvDTRY=".
Proof.
  apply (checksum_signs_sorted_parameters signed_in no_ambient_keys
           test_vector "secret" test_vector_sorted).
  - reflexivity.
  - apply (bool_decide_unpack _). vm_compute. exact I.
  - apply (bool_decide_unpack _). vm_compute. exact I.
Defined.

(** C3 as stated fails: a short secret key can occur in the signature it
    produces.  The key bx1 signs the test vector as
    eaNczRXlrGdpViqWTiUrQzJbx1o=. *)
Lemma secret_key_occurs_in_signature :
  Monitis_checksum signed_in no_ambient_keys
    (<["secretkey" := VStr "bx1"]> test_vector)
  = Ok "eaNczRXlrGdpViqWTiUrQzJbx1o="
  ∧ checksum keys_in_environment (<["secretkey" := VStr "bx1"]> test_vector)
    = Ok "eaNczRXlrGdpViqWTiUrQzJbx1o="
  ∧ occurs_in "bx1" "eaNczRXlrGdpViqWTiUrQzJbx1o=" = true.
Proof. by vm_compute. Qed.

(** C10: with no class-level secret key and none in the environment, the
    module-level [checksum] raises although a secret key is passed to it,
    while [Monitis.checksum] signs with that key. *)
Theorem checksum_raises_without_ambient_key :
  checksum no_ambient_keys (<["secretkey" := VStr "k"]> test_vector)
  = Raise (MonitisError "The Monitis secret key is required")
  ∧ Monitis_checksum signed_in no_ambient_keys
      (<["secretkey" := VStr "k"]> test_vector)
    = Ok "pPQWstjUmXx/NmwiTzw5peoBMBc=".
Proof. by vm_compute. Qed.


(** ** Sensitivity of the signature *)







(** ** POST *)

(** A successful free-function [post] sent exactly one request; its
    parameter set holds the API key, the action, the version and the time
    stamp, and the checksum computed over them and the extra parameters. *)
Lemma post_carries_required_keys `{Runtime} (w : world)
    (apikey secretkey : option string) (action version : value)
    (_url : option string) (kwargs : gmap string value) (ret : returned) :
  outcome (post w apikey secretkey action version _url kwargs) = Ok ret →
  ∃ url signed key secret signature,
    sent_requests (post w apikey secretkey action version _url kwargs)
    = [Post url (<["checksum" := VStr signature]> signed)]
    ∧ Forall (λ k, is_Some ((<["checksum" := VStr signature]> signed) !! k))
             post_keys
    ∧ signed !! "apikey" = Some (VStr key)
    ∧ signed !! "action" = Some action
    ∧ truthy action = true
    ∧ signed !! "version" = Some version
    ∧ signed !! "timestamp" = Some (VStr (timestamp (now w)))
    ∧ checksum (cfg w) (<["secretkey" := VStr secret]> signed)
      = Ok signature.
Proof.
  unfold post.
  destruct (or_else apikey (resolve_apikey (cfg w))) as [key|e];
    [|by unfold_io].
  destruct (or_else secretkey (resolve_secretkey (cfg w))) as [secret|e];
    [|by unfold_io].
  destruct (pop "_raw" (VBool false) kwargs) as [_raw kwargs'].
  destruct (truthy action) eqn:Haction; [|by unfold_io].
  unfold_io.
  set (signed := <["timestamp" := VStr (timestamp (now w))]>
                   (<["version" := version]>
                      (<["action" := action]>
                         (<["apikey" := VStr key]> kwargs')))).
  destruct (checksum (cfg w) (<["secretkey" := VStr secret]> signed))
    as [signature|e] eqn:Hsig; [|done].
  destruct (urlopen w _) as [res|page] eqn:Hreply; [|done].
  intros Hret.
  exists (default (_api_url (cfg w)) (of_nonempty _url)), signed, key,
    secret, signature.
  split.
  { destruct (truthy _raw); simpl; [done|].
    by destruct (decode_json (body res)). }
  assert (signed !! "apikey" = Some (VStr key)
          ∧ signed !! "action" = Some action
          ∧ signed !! "version" = Some version
          ∧ signed !! "timestamp" = Some (VStr (timestamp (now w))))
    as (Hk & Ha & Hv & Ht).
  { unfold signed.
    repeat split;
      repeat (rewrite lookup_insert_ne by done); apply lookup_insert_eq. }
  split; [|done].
  unfold post_keys.
  repeat constructor;
    try (rewrite lookup_insert_ne by done; eauto).
  rewrite lookup_insert_eq. eauto.
Qed.

(** What a successful [Monitis.post] sent and returned: one request to the
    instance's endpoint with the instance's API key and version, the time
    stamp and the checksum; the action only if the caller passed one; and the
    body of the response as it was read. *)
Lemma Monitis_post_sends `{Runtime} (self : instance) (w : world)
    (kwargs : gmap string value) (ret : returned) :
  outcome (Monitis_post self w kwargs) = Ok ret →
  ∃ signed signature res,
    sent_requests (Monitis_post self w kwargs)
    = [Post (self_url self) (<["checksum" := VStr signature]> signed)]
    ∧ signed !! "apikey" = Some (of_opt (self_apikey self))
    ∧ signed !! "version" = Some (self_version self)
    ∧ signed !! "timestamp" = Some (VStr (timestamp (now w)))
    ∧ signed !! "action" = kwargs !! "action"
    ∧ Monitis_checksum self (cfg w) signed = Ok signature
    ∧ urlopen w (Post (self_url self)
                      (<["checksum" := VStr signature]> signed)) = Reply res
    ∧ ret = Text (body res).
Proof.
  unfold Monitis_post.
  set (signed := <["timestamp" := VStr (timestamp (now w))]>
                   (<["version" := self_version self]>
                      (<["apikey" := of_opt (self_apikey self)]> kwargs))).
  unfold_io.
  destruct (Monitis_checksum self (cfg w) signed)
    as [signature|e] eqn:Hsig; [|done].
  destruct (urlopen w _) as [res|page] eqn:Hreply; simpl; [|done].
  intros [= <-]. exists signed, signature, res.
  split; [done|].
  unfold signed.
  repeat split; try done;
    repeat (rewrite lookup_insert_ne by done);
    rewrite ?lookup_insert_eq; done.
Qed.

(** [Monitis.post] never hands back a decoded JSON value, and never the
    response object either. *)
Lemma Monitis_post_never_decodes `{Runtime} (self : instance) (w : world)
    (kwargs : gmap string value) (ret : returned) :
  outcome (Monitis_post self w kwargs) = Ok ret → ∃ text, ret = Text text.
Proof.
  intros Hret. apply Monitis_post_sends in Hret
    as (_ & _ & res & _ & _ & _ & _ & _ & _ & _ & ->).
  eauto.
Qed.

(** C1: the bound method returns the body of the response as text where the
    free function, given the instance's credentials, version and endpoint
    and the same arguments, sends the same request and returns the decoded
    JSON value. *)
Theorem Monitis_post_returns_undecoded_body :
  outcome (Monitis_post signed_in example_world
             {[ "action" := VStr "agents" ]})
  = Ok (Text "{}")
  ∧ outcome (post_from_instance signed_in example_world
               {[ "action" := VStr "agents" ]})
    = Ok (Decoded (JObj []))
  ∧ sent_requests (Monitis_post signed_in example_world
                     {[ "action" := VStr "agents" ]})
    = sent_requests (post_from_instance signed_in example_world
                       {[ "action" := VStr "agents" ]}).
Proof. by vm_compute. Qed.

(** C2: called without an action, the bound method still sends a request,
    and the parameter set of that request has no action; the free function
    refuses the same call before sending anything. *)
Theorem Monitis_post_sends_without_action :
  (λ req, submitted req !! "action")
    <$> sent_requests (Monitis_post signed_in example_world ∅)
  = [None]
  ∧ (λ req, (λ k, bool_decide (is_Some (submitted req !! k))) <$> post_keys)
      <$> sent_requests (Monitis_post signed_in example_world ∅)
    = [[true; false; true; true; true]]
  ∧ outcome (Monitis_post signed_in example_world ∅) = Ok (Text "{}")
  ∧ post_from_instance signed_in example_world ∅
    = ([], Raise (MonitisError "post: action is required")).
Proof. vm_compute. repeat split. Qed.


(** ** The library models against their published test vectors *)

Example sha1_rfc3174_vectors :
  hexdigest (str_of (SHA1.digest (bytes_of "abc")))
  = "a9993e364706816aba3e25717850c26c9cd0d89d"
  ∧ hexdigest (str_of (SHA1.digest (bytes_of "")))
    = "da39a3ee5e6b4b0d3255bfef95601890afd80709"
  ∧ hexdigest
      (str_of (SHA1.digest
         (bytes_of "abcdbcdecdefdefgefghfghighijhijkijkljklmklmnlmnomnopnopq")))
    = "84983e441c3bd26ebaae4aa1f95129e5e54670f1".
Proof. by vm_compute. Qed.

Example hmac_sha1_rfc2202_vector :
  hexdigest (hmac_sha1 "Jefe" "what do ya want for nothing?")
  = "effcdf6ae5eb2fa2d27416d5f184df9c259a7c79".
Proof. by vm_compute. Qed.

Example b64encode_rfc4648_vectors :
  b64encode "" = "" ∧ b64encode "f" = "Zg==" ∧ b64encode "fo" = "Zm8="
  ∧ b64encode "foo" = "Zm9v" ∧ b64encode "foob" = "Zm9vYg=="
  ∧ b64encode "fooba" = "Zm9vYmE=" ∧ b64encode "foobar" = "Zm9vYmFy".
Proof. by vm_compute. Qed.

Example timestamp_format :
  timestamp example_clock = "2011-10-01 03:06:40".
Proof. reflexivity. Qed.

(** ** The bound method against the free function *)

Lemma Monitis_checksum_own_key `{Runtime} (self : instance) (c : config)
    (kwargs : gmap string value) (secretkey : string) :
  kwargs !! "secretkey" = None →
  self_secretkey self = Some secretkey → secretkey ≠ "" →
  Monitis_checksum self c kwargs
  = sign (VStr secretkey) (param_string (sorted (dict_items kwargs))).
Proof.
  intros Hk Hself Hne. unfold Monitis_checksum. rewrite Hk, Hself. simpl.
  rewrite bool_decide_eq_false_2 by done. simpl.
  by rewrite param_string_loop_eq.
Qed.

Lemma get_validates_before_network_witness :
  sent_requests
    (get example_world (Some "abc") VNone (VStr "2") None
         {[ "agentId" := VStr "5" ]})
  = [].
Proof.
  apply (get_validates_before_network example_world (Some "abc") VNone
           (VStr "2") None {[ "agentId" := VStr "5" ]}).
  right. reflexivity.
Defined.

(** ** checktime: the result *)

(** A decimal numeral reads back as the number it writes. *)
Lemma number_pretty_N_go (x : N) :
  ∃ k : nat, ∀ (s : string) (a : Z),
    foldl (λ n c, 10 * n + (ord c - 48)) a
      (String.list_ascii_of_string (pretty_N_go x s))
    = foldl (λ n c, 10 * n + (ord c - 48)) (a * 10 ^ Z.of_nat k + Z.of_N x)
        (String.list_ascii_of_string s).
Proof.
  induction (N.lt_wf_0 x) as [x _ IH].
  destruct (decide (x = 0%N)) as [->|Hx].
  { exists 0%nat. intros s a. rewrite pretty_N_go_0. f_equal. lia. }
  destruct (IH (x `div` 10)%N) as [k Hk].
  { apply N.div_lt; lia. }
  exists (S k). intros s a. rewrite pretty_N_go_step by lia.
  rewrite Hk. simpl. f_equal.
  assert (ord (pretty_N_char (x `mod` 10)) - 48 = Z.of_N (x `mod` 10))
    as ->.
  { pose proof (N.mod_upper_bound x 10 ltac:(lia)) as Hd.
    set (d := (x `mod` 10)%N) in *. clearbody d.
    assert (d = 0 ∨ d = 1 ∨ d = 2 ∨ d = 3 ∨ d = 4 ∨ d = 5 ∨ d = 6 ∨ d = 7
            ∨ d = 8 ∨ d = 9)%N as Hcase by lia.
    destruct Hcase as [->|[->|[->|[->|[->|[->|[->|[->|[->| ->]]]]]]]]];
      reflexivity. }
  rewrite Nat2Z.inj_succ, Z.pow_succ_r by lia.
  rewrite (N.div_mod x 10) at 3 by lia.
  rewrite N2Z.inj_add, N2Z.inj_mul. change (Z.of_N 10) with 10. lia.
Qed.

Lemma number_pretty (n : Z) : 0 ≤ n → number (pretty n) = n.
Proof.
  intros Hn. destruct n as [|p|p]; [done| |lia].
  unfold number. change (pretty (Z.pos p)) with (pretty_N_go (N.pos p) "").
  destruct (number_pretty_N_go (N.pos p)) as [k Hk]. rewrite Hk. simpl. lia.
Qed.

Lemma number_append (a b : string) :
  number (a +:+ b)
  = foldl (λ n c, 10 * n + (ord c - 48)) (number a)
      (String.list_ascii_of_string b).
Proof.
  unfold number.
  assert (String.list_ascii_of_string (a +:+ b)
          = String.list_ascii_of_string a ++ String.list_ascii_of_string b)
    as ->.
  { induction a as [|c a IH]; [done|]. rewrite append_cons. simpl.
    by rewrite IH. }
  apply foldl_app.
Qed.

Lemma checktime_of_seconds (seconds : Z) :
  0 ≤ seconds →
  number (str (VInt seconds) +:+ "000") = 1000 * seconds.
Proof.
  intros Hs. rewrite number_append. simpl.
  change (pretty_Z seconds) with (pretty seconds).
  rewrite number_pretty by done. change (ord "0") with 48. lia.
Qed.

(** C8 (as amended): given a point in time whose epoch second can be had,
    [checktime] returns the decimal string of the whole-second epoch time
    followed by the three characters 000, for an epoch second that is not
    negative a numeral that reads as a thousand times it.  For a datetime,
    the epoch second is what [time.mktime] makes of its year, month, day,
    hour, minute and second; the microsecond is not looked at, and where
    [time.mktime] raises, [checktime] raises the same error.  Without a
    datetime it is the clock's reading cut to whole seconds.  For epoch
    second 1000000, read from the clock or given as 1970-01-12 13:46:40 in
    a UTC process, the result is exactly 1000000000; one second later it is
    1000001000. *)
Theorem checktime_whole_seconds `{Runtime} (now : clock) (dt : datetime) :
  let epoch_time :=
    mktime {| tm_year := year dt; tm_mon := month dt; tm_mday := day dt;
              tm_hour := hour dt; tm_min := minute dt;
              tm_sec := second dt |} in
  (∀ seconds, epoch_time = Ok seconds →
     ∃ text,
       checktime now (Some dt) = Ok text
       ∧ text = pretty seconds +:+ "000"
       ∧ (0 ≤ seconds → number text = 1000 * seconds))
  ∧ (∀ e, epoch_time = Raise e → checktime now (Some dt) = Raise e)
  ∧ (∀ seconds,
       0 ≤ seconds → (inject_Z seconds <= time now)%Q →
       (time now < inject_Z (seconds + 1))%Q →
       ∃ text,
         checktime now None = Ok text
         ∧ text = pretty seconds +:+ "000"
         ∧ number text = 1000 * seconds)
  ∧ (∀ fraction,
       (0 <= fraction)%Q → (fraction < 1)%Q →
       checktime {| utcnow := utcnow now;
                    time := (inject_Z 1000000 + fraction)%Q |} None
       = Ok "1000000000")
  ∧ (∀ us,
       @checktime utc_runtime now
         (Some {| year := 1970; month := 1; day := 12; hour := 13;
                  minute := 46; second := 40; microsecond := us |})
       = Ok "1000000000")
  ∧ (∀ us,
       @checktime utc_runtime now
         (Some {| year := 1970; month := 1; day := 12; hour := 13;
                  minute := 46; second := 41; microsecond := us |})
       = Ok "1000001000").
Proof.
  intros epoch_time. subst epoch_time.
  split; [|split; [|split; [|split; [|split]]]].
  - intros seconds Hs. unfold checktime, timetuple. rewrite Hs. simpl.
    eexists. split; [done|]. split; [done|].
    intros Hn. by apply checktime_of_seconds.
  - intros e He. unfold checktime, timetuple. by rewrite He.
  - intros seconds Hn Hle Hlt. unfold checktime. simpl.
    rewrite (int_of_float_whole_second _ seconds) by done.
    eexists. split; [done|]. split; [done|].
    by apply checktime_of_seconds.
  - intros fraction Hle Hlt. unfold checktime. simpl.
    rewrite (int_of_float_whole_second _ 1000000); [done|lia|..].
    + rewrite <-(Qplus_0_r (inject_Z 1000000)) at 1.
      by apply Qplus_le_r.
    + change (inject_Z (1000000 + 1)) with (inject_Z 1000000 + 1)%Q.
      by apply Qplus_lt_r.
  - done.
  - done.
Qed.

Lemma checktime_whole_seconds_witness :
  ∃ text,
    checktime {| utcnow := Build_datetime 2011 10 1 3 6 40 0; time := 0 |}
      (Some (Build_datetime 2011 10 1 3 6 40 999999)) = Ok text
    ∧ text = "1317438400000"
    ∧ (0 ≤ 1317438400 → number text = 1000 * 1317438400).
Proof.
  apply (proj1 (checktime_whole_seconds
                  {| utcnow := Build_datetime 2011 10 1 3 6 40 0; time := 0 |}
                  (Build_datetime 2011 10 1 3 6 40 999999)) 1317438400).
  reflexivity.
Defined.

(** C8 as stated fails: not every point in time has a result.  Python 2's
    [time.mktime] refuses the years 100 to 1899, so for the first day of
    1800 [checktime] raises a [ValueError] and returns no string. *)
Lemma checktime_raises_before_1900 :
  checktime example_clock
    (Some {| year := 1800; month := 1; day := 1; hour := 0; minute := 0;
             second := 0; microsecond := 0 |})
  = Raise ValueError.
Proof. reflexivity. Qed.

(** ** What the signature is sensitive to *)









(** * Further properties *)

(** ** Transport: what is sent, and when *)

Lemma or_else_unset_apikey (apikey : option string) (c : config) :
  or_else apikey (resolve_apikey c)
  = if decide (apikey_unset apikey c)
    then Raise (MonitisError "The Monitis API key is required")
    else or_else apikey (resolve_apikey c).
Proof.
  destruct (decide (apikey_unset apikey c)) as [(He & Hc & Henv)|]; [|done].
  rewrite or_else_nonempty, resolve_apikey_env, He, Hc, Henv. done.
Qed.

Lemma or_else_resolves_apikey (apikey : option string) (c : config) :
  ¬ apikey_unset apikey c → ∃ key, or_else apikey (resolve_apikey c) = Ok key.
Proof.
  intros Hset. rewrite or_else_nonempty, resolve_apikey_env.
  unfold apikey_unset in Hset.
  destruct (of_nonempty apikey); [eauto|].
  destruct (Monitis_apikey c); [eauto|].
  destruct (os_environ c !! apikey_env_name c); [eauto|].
  by destruct Hset.
Qed.

Lemma or_else_unset_secretkey (secretkey : option string) (c : config) :
  secretkey_unset secretkey c →
  or_else secretkey (resolve_secretkey c)
  = Raise (MonitisError "The Monitis secret key is required").
Proof.
  intros (He & Hc & Henv).
  rewrite or_else_nonempty, resolve_secretkey_env, He, Hc, Henv. done.
Qed.

Lemma or_else_resolves_secretkey (secretkey : option string) (c : config) :
  ¬ secretkey_unset secretkey c →
  ∃ key, or_else secretkey (resolve_secretkey c) = Ok key.
Proof.
  intros Hset. rewrite or_else_nonempty, resolve_secretkey_env.
  unfold secretkey_unset in Hset.
  destruct (of_nonempty secretkey); [eauto|].
  destruct (Monitis_secretkey c); [eauto|].
  destruct (os_environ c !! secretkey_env_name c); [eauto|].
  by destruct Hset.
Qed.

(** X1: the free-function [post] checks its arguments before it touches the
    network.  When the API key has no source, or the secret key has none, or
    the action is missing, it sends nothing and raises; the API key is
    reported first, then the secret key, then the action. *)
Theorem post_validates_before_network `{Runtime} (w : world)
    (apikey secretkey : option string) (action version : value)
    (_url : option string) (kwargs : gmap string value) :
  apikey_unset apikey (cfg w) ∨ secretkey_unset secretkey (cfg w)
  ∨ truthy action = false →
  post w apikey secretkey action version _url kwargs
  = ([], Raise (MonitisError
       (if decide (apikey_unset apikey (cfg w))
        then "The Monitis API key is required"
        else if decide (secretkey_unset secretkey (cfg w))
        then "The Monitis secret key is required"
        else "post: action is required"))).
Proof.
  intros Hbad. unfold post.
  rewrite or_else_unset_apikey.
  destruct (decide (apikey_unset apikey (cfg w))) as [|Hkey]; [done|].
  destruct (or_else_resolves_apikey _ _ Hkey) as [key ->].
  destruct (decide (secretkey_unset secretkey (cfg w))) as [Hsec|Hsec].
  { by rewrite or_else_unset_secretkey. }
  destruct (or_else_resolves_secretkey _ _ Hsec) as [secret ->].
  destruct Hbad as [?|[?|Hact]]; [done..|].
  destruct (pop "_raw" (VBool false) kwargs) as [_raw kwargs']. unfold_io.
  by rewrite Hact.
Qed.

Lemma post_validates_before_network_witness :
  post example_world (Some "abc") (Some "secret") (VStr "") (VInt 2) None
       {[ "agentIds" := VStr "5" ]}
  = ([], Raise (MonitisError "post: action is required")).
Proof.
  apply (post_validates_before_network example_world (Some "abc")
           (Some "secret") (VStr "") (VInt 2) None
           {[ "agentIds" := VStr "5" ]}).
  right. right. reflexivity.
Defined.

(** X2: in a process that holds no secret key of its own (no class attribute
    and no environment variable) the free-function [post] never sends a
    request, whatever it is called with: passing the secret key explicitly
    does not help, because the checksum looks the ambient key up first. *)
Theorem post_needs_ambient_secretkey `{Runtime} (w : world)
    (apikey secretkey : option string) (action version : value)
    (_url : option string) (kwargs : gmap string value) :
  Monitis_secretkey (cfg w) = None →
  os_environ (cfg w) !! secretkey_env_name (cfg w) = None →
  sent_requests (post w apikey secretkey action version _url kwargs) = []
  ∧ ∃ msg,
      outcome (post w apikey secretkey action version _url kwargs)
      = Raise (MonitisError msg)
      ∧ (¬ apikey_unset apikey (cfg w) → truthy action = true →
         msg = "The Monitis secret key is required").
Proof.
  intros Hcls Henv.
  assert (Hamb : resolve_secretkey (cfg w)
                 = Raise (MonitisError "The Monitis secret key is required")).
  { by rewrite resolve_secretkey_env, Hcls, Henv. }
  unfold post. rewrite or_else_unset_apikey.
  destruct (decide (apikey_unset apikey (cfg w))) as [|Hkey].
  { split; [done|]. eexists. split; [done|]. done. }
  destruct (or_else_resolves_apikey _ _ Hkey) as [key ->].
  rewrite (or_else_nonempty secretkey), Hamb.
  destruct (of_nonempty secretkey) as [secret|].
  2:{ split; [done|]. eexists. split; [done|]. done. }
  destruct (pop "_raw" (VBool false) kwargs) as [_raw kwargs']. unfold_io.
  destruct (truthy action); simpl.
  - rewrite (checksum_needs_ambient_key _ _ _ Hamb).
    split; [done|]. eexists. split; [done|]. done.
  - split; [done|]. eexists. split; [done|]. done.
Qed.

Lemma post_needs_ambient_secretkey_witness :
  sent_requests
    (post world_without_keys (Some "abc") (Some "secret") (VStr "agents")
          (VInt 2) None ∅)
  = [].
Proof.
  apply (post_needs_ambient_secretkey world_without_keys (Some "abc")
           (Some "secret") (VStr "agents") (VInt 2) None ∅);
    reflexivity.
Defined.

(** X3: no call is retried.  [get], [post] and [Monitis.post] each send at
    most one request, and exactly one when they return. *)
Theorem requests_sent_at_most_once `{Runtime} (w : world) (self : instance)
    (apikey secretkey : option string) (action version : value)
    (_url : option string) (kwargs : gmap string value) :
  Forall (λ m : io returned,
            (length (sent_requests m) ≤ 1)%nat
            ∧ ∀ ret, outcome m = Ok ret → length (sent_requests m) = 1%nat)
    [get w apikey action version _url kwargs;
     post w apikey secretkey action version _url kwargs;
     Monitis_post self w kwargs].
Proof.
  apply Forall_cons. split; [split|].
  3: apply Forall_cons; split; [split|].
  5: apply Forall_cons; split; [split|by apply Forall_nil].
  - unfold get. destruct (pop "_raw" (VBool false) kwargs) as [_raw kw].
    destruct (or_else apikey (resolve_apikey (cfg w))) as [key|e];
      [|unfold_io; lia].
    unfold_io. case_bool_decide; [simpl; lia|].
    destruct (truthy action); simpl; [|lia].
    destruct (urlopen w _); simpl; [|lia].
    destruct (truthy _raw); simpl; [lia|].
    destruct (decode_json (body res)); simpl; lia.
  - unfold get. destruct (pop "_raw" (VBool false) kwargs) as [_raw kw].
    destruct (or_else apikey (resolve_apikey (cfg w))) as [key|e];
      [|by unfold_io].
    unfold_io. case_bool_decide; [done|].
    destruct (truthy action); simpl; [|done].
    destruct (urlopen w _); simpl; [|done].
    destruct (truthy _raw); simpl; [done|].
    by destruct (decode_json (body res)).
  - unfold post.
    destruct (or_else apikey (resolve_apikey (cfg w))) as [key|e];
      [|unfold_io; lia].
    destruct (or_else secretkey (resolve_secretkey (cfg w))) as [secret|e];
      [|unfold_io; lia].
    destruct (pop "_raw" (VBool false) kwargs) as [_raw kw]. unfold_io.
    destruct (truthy action); simpl; [|lia].
    destruct (checksum (cfg w) _); simpl; [|lia].
    destruct (urlopen w _); simpl; [|lia].
    destruct (truthy _raw); simpl; [lia|].
    destruct (decode_json (body res)); simpl; lia.
  - unfold post.
    destruct (or_else apikey (resolve_apikey (cfg w))) as [key|e];
      [|by unfold_io].
    destruct (or_else secretkey (resolve_secretkey (cfg w))) as [secret|e];
      [|by unfold_io].
    destruct (pop "_raw" (VBool false) kwargs) as [_raw kw]. unfold_io.
    destruct (truthy action); simpl; [|done].
    destruct (checksum (cfg w) _); simpl; [|done].
    destruct (urlopen w _); simpl; [|done].
    destruct (truthy _raw); simpl; [done|].
    by destruct (decode_json (body res)).
  - unfold Monitis_post. unfold_io.
    destruct (Monitis_checksum self (cfg w) _); simpl; [|lia].
    destruct (urlopen w _); simpl; lia.
  - unfold Monitis_post. unfold_io.
    destruct (Monitis_checksum self (cfg w) _); simpl; [|done].
    by destruct (urlopen w _).
Qed.

Lemma requests_sent_at_most_once_witness :
  length (sent_requests (Monitis_post signed_in example_world ∅)) = 1%nat.
Proof.
  pose proof (requests_sent_at_most_once example_world signed_in None None
                VNone VNone None ∅) as Hall.
  apply Forall_cons in Hall as [_ Hall].
  apply Forall_cons in Hall as [_ Hall].
  apply Forall_cons in Hall as [[_ Hone] _].
  apply (Hone (Text "{}")). vm_compute. reflexivity.
Defined.

Lemma decode_json_handled `{Runtime} (kwargs : gmap string value)
    (res : response) :
  (if truthy (pop "_raw" (VBool false) kwargs).1 then Ok (Response res)
   else j ←! decode_json (body res); Ok (Decoded j))
  = handled kwargs res.
Proof.
  unfold handled, raw_requested, pop, decode_json. simpl.
  destruct (truthy _); [done|]. by destruct (loads (body res)).
Qed.

(** X4: once a request is out, the server's answer decides the outcome.  An
    HTTP error becomes a [MonitisError] that carries the error page.  A
    response is returned as it is by [get] and [post] when [_raw] was asked
    for, whatever its body; otherwise they return the decoded body, or a
    [MonitisError] with the parser's complaint.  [Monitis.post] returns the
    body itself. *)
Theorem outcome_after_sending `{Runtime} (w : world) (self : instance)
    (apikey secretkey : option string) (action version : value)
    (_url : option string) (kwargs : gmap string value) (req : request) :
  let answer (text : response → result returned) :=
    match urlopen w req with
    | Reply res => text res
    | HTTPError page => Raise (MonitisError ("API Error: " +:+ page))
    end in
  (sent_requests (get w apikey action version _url kwargs) = [req] →
   outcome (get w apikey action version _url kwargs)
   = answer (handled kwargs))
  ∧ (sent_requests (post w apikey secretkey action version _url kwargs)
     = [req] →
     outcome (post w apikey secretkey action version _url kwargs)
     = answer (handled kwargs))
  ∧ (sent_requests (Monitis_post self w kwargs) = [req] →
     outcome (Monitis_post self w kwargs)
     = answer (λ res, Ok (Text (body res)))).
Proof.
  intros answer. subst answer. cbv beta.
  pose proof (decode_json_handled kwargs) as Hh.
  split; [|split].
  - unfold get.
    destruct (pop "_raw" (VBool false) kwargs) as [_raw kw]. simpl in Hh.
    destruct (or_else apikey (resolve_apikey (cfg w))) as [key|e];
      [|by unfold_io].
    unfold_io. case_bool_decide; [done|].
    destruct (truthy action); simpl; [|done].
    destruct (urlopen w (Get _ _)) as [res|page] eqn:Hreply; simpl.
    + specialize (Hh res).
      destruct (truthy _raw) eqn:Hraw; simpl.
      * intros [= <-]. by rewrite Hreply, <-Hh.
      * destruct (decode_json (body res)) eqn:Hjson; simpl;
          intros [= <-]; by rewrite Hreply, <-Hh.
    + intros [= <-]. by rewrite Hreply.
  - unfold post.
    destruct (or_else apikey (resolve_apikey (cfg w))) as [key|e];
      [|by unfold_io].
    destruct (or_else secretkey (resolve_secretkey (cfg w))) as [secret|e];
      [|by unfold_io].
    destruct (pop "_raw" (VBool false) kwargs) as [_raw kw]. simpl in Hh.
    unfold_io.
    destruct (truthy action); simpl; [|done].
    destruct (checksum (cfg w) _); simpl; [|done].
    destruct (urlopen w (Post _ _)) as [res|page] eqn:Hreply; simpl.
    + specialize (Hh res).
      destruct (truthy _raw) eqn:Hraw; simpl.
      * intros [= <-]. by rewrite Hreply, <-Hh.
      * destruct (decode_json (body res)) eqn:Hjson; simpl;
          intros [= <-]; by rewrite Hreply, <-Hh.
    + intros [= <-]. by rewrite Hreply.
  - unfold Monitis_post. unfold_io.
    destruct (Monitis_checksum self (cfg w) _); simpl; [|done].
    destruct (urlopen w (Post _ _)) as [res|page] eqn:Hreply; simpl;
      intros [= <-]; by rewrite Hreply.
Qed.

Lemma outcome_after_sending_witness :
  outcome (get {| cfg := keys_in_environment; now := example_clock;
                  urlopen := failing "Invalid API key" |}
             None (VStr "agents") (VStr "2") None ∅)
  = Raise (MonitisError "API Error: Invalid API key").
Proof.
  apply (outcome_after_sending
           {| cfg := keys_in_environment; now := example_clock;
              urlopen := failing "Invalid API key" |}
           signed_in None None (VStr "agents") (VStr "2") None ∅
           (Get default_url
              [("apikey", VStr "abc"); ("action", VStr "agents");
               ("output", VStr "JSON"); ("version", VStr "2")])).
  vm_compute. reflexivity.
Defined.

(** ** The requests of [get] and [post] *)

Lemma get_sent_cases `{Runtime} (w : world) (apikey : option string)
    (action version : value) (_url : option string)
    (kwargs : gmap string value) :
  sent_requests (get w apikey action version _url kwargs)
  = match or_else apikey (resolve_apikey (cfg w)) with
    | Ok key =>
        if bool_decide (key = "") || negb (truthy action) then []
        else [Get (default (_api_url (cfg w)) (of_nonempty _url))
                  ([("apikey", VStr key); ("action", action);
                    ("output", VStr "JSON"); ("version", version)]
                     ++ dict_items (delete "_raw" kwargs))]
    | Raise _ => []
    end.
Proof.
  unfold get, pop.
  destruct (or_else apikey (resolve_apikey (cfg w))) as [key|e];
    [|by unfold_io].
  unfold_io. case_bool_decide; [done|].
  destruct (truthy action); simpl; [|done].
  destruct (urlopen w _); simpl; [|done].
  destruct (truthy (default _ _)); simpl; [done|].
  by destruct (decode_json _).
Qed.

Lemma post_sent_cases `{Runtime} (w : world)
    (apikey secretkey : option string) (action version : value)
    (_url : option string) (kwargs : gmap string value) :
  sent_requests (post w apikey secretkey action version _url kwargs)
  = match or_else apikey (resolve_apikey (cfg w)),
          or_else secretkey (resolve_secretkey (cfg w)) with
    | Ok key, Ok secret =>
        let signed :=
          <["timestamp" := VStr (timestamp (now w))]>
            (<["version" := version]>
               (<["action" := action]>
                  (<["apikey" := VStr key]> (delete "_raw" kwargs)))) in
        if truthy action
        then match checksum (cfg w) (<["secretkey" := VStr secret]> signed)
             with
             | Ok signature =>
                 [Post (default (_api_url (cfg w)) (of_nonempty _url))
                       (<["checksum" := VStr signature]> signed)]
             | Raise _ => []
             end
        else []
    | _, _ => []
    end.
Proof.
  unfold post, pop.
  destruct (or_else apikey (resolve_apikey (cfg w))) as [key|e];
    [|by unfold_io].
  destruct (or_else secretkey (resolve_secretkey (cfg w))) as [secret|e];
    [|by unfold_io].
  unfold_io. destruct (truthy action); simpl; [|done].
  destruct (checksum (cfg w) _); simpl; [|done].
  destruct (urlopen w _); simpl; [|done].
  destruct (truthy (default _ _)); simpl; [done|].
  by destruct (decode_json _).
Qed.

Lemma get_sent `{Runtime} (w : world) (apikey : option string)
    (action version : value) (_url : option string)
    (kwargs : gmap string value) (key : string) :
  or_else apikey (resolve_apikey (cfg w)) = Ok key → key ≠ "" →
  truthy action = true →
  sent_requests (get w apikey action version _url kwargs)
  = [Get (default (_api_url (cfg w)) (of_nonempty _url))
         ([("apikey", VStr key); ("action", action);
           ("output", VStr "JSON"); ("version", version)]
            ++ dict_items (delete "_raw" kwargs))].
Proof.
  intros Hkey Hne Hact. rewrite get_sent_cases, Hkey, Hact.
  by rewrite bool_decide_eq_false_2.
Qed.

Lemma post_sent `{Runtime} (w : world) (apikey secretkey : option string)
    (action version : value) (_url : option string)
    (kwargs : gmap string value) (key secret ambient : string) :
  or_else apikey (resolve_apikey (cfg w)) = Ok key →
  or_else secretkey (resolve_secretkey (cfg w)) = Ok secret →
  resolve_secretkey (cfg w) = Ok ambient →
  truthy action = true →
  kwargs !! "secretkey" = None →
  let signed :=
    <["timestamp" := VStr (timestamp (now w))]>
      (<["version" := version]>
         (<["action" := action]>
            (<["apikey" := VStr key]> (delete "_raw" kwargs)))) in
  sent_requests (post w apikey secretkey action version _url kwargs)
  = [Post (default (_api_url (cfg w)) (of_nonempty _url))
          (<["checksum" := VStr (b64encode (hmac_sha1 secret
                                              (signed_string signed)))]>
             signed)].
Proof.
  intros Hkey Hsecret Hamb Hact Hfresh signed.
  assert (Hsigned : signed !! "secretkey" = None).
  { unfold signed. rewrite !lookup_insert_ne by done.
    by rewrite lookup_delete_ne. }
  rewrite post_sent_cases, Hkey, Hsecret, Hact. cbv zeta. fold signed.
  rewrite (checksum_explicit (cfg w) _ (VStr secret) ambient)
    by (apply lookup_insert_eq || done).
  by rewrite delete_insert_id.
Qed.

(** X5: the request of a [get] that passed validation.  It goes to the
    endpoint of the call; its parameters start with the API key, the action,
    the output format JSON and the version, in this order, followed by the
    caller's other arguments, each once, in the order the dictionary
    enumerates them.  The [_raw] flag is not among them. *)
Theorem get_request `{Runtime} (w : world) (apikey : option string)
    (action version : value) (_url : option string)
    (kwargs : gmap string value) (key : string) :
  or_else apikey (resolve_apikey (cfg w)) = Ok key → key ≠ "" →
  truthy action = true →
  ∃ rest,
    sent_requests (get w apikey action version _url kwargs)
    = [Get (default (_api_url (cfg w)) (of_nonempty _url))
           ([("apikey", VStr key); ("action", action);
             ("output", VStr "JSON"); ("version", version)] ++ rest)]
    ∧ rest ≡ₚ map_to_list (delete "_raw" kwargs)
    ∧ NoDup rest.*1
    ∧ (∀ k v, (k, v) ∈ rest ↔ kwargs !! k = Some v ∧ k ≠ "_raw").
Proof.
  intros Hkey Hne Hact. exists (dict_items (delete "_raw" kwargs)).
  split; [|split; [|split]].
  - by apply get_sent.
  - apply dict_items_perm.
  - rewrite dict_items_perm. apply NoDup_fst_map_to_list.
  - intros k v. rewrite elem_of_dict_items, lookup_delete_Some.
    split; intros [??]; split; done.
Qed.

Lemma get_request_witness :
  ∃ rest,
    sent_requests (get example_world None (VStr "agentInfo") (VStr "2") None
                       {[ "agentId" := VInt 5; "_raw" := VBool true ]})
    = [Get "http://monitis.com/api"
           ([("apikey", VStr "abc"); ("action", VStr "agentInfo");
             ("output", VStr "JSON"); ("version", VStr "2")] ++ rest)]
    ∧ rest ≡ₚ [("agentId", VInt 5)].
Proof.
  destruct (get_request example_world None (VStr "agentInfo") (VStr "2") None
              {[ "agentId" := VInt 5; "_raw" := VBool true ]} "abc")
    as (rest & Hsent & Hperm & _).
  - reflexivity.
  - discriminate.
  - reflexivity.
  - exists rest. split; [exact Hsent|]. rewrite Hperm.
    apply (bool_decide_unpack _). vm_compute. exact I.
Defined.

(** X6: the request of a free-function [post] that passed validation, in a
    process that can resolve a secret key.  The parameter set is the
    caller's arguments without [_raw], with the API key, the action, the
    version and the time stamp set over them, and the checksum of exactly
    these parameters under the secret key of the call.  The secret key and
    [_raw] are not sent. *)
Theorem post_request `{Runtime} (w : world) (apikey secretkey : option string)
    (action version : value) (_url : option string)
    (kwargs : gmap string value) (key secret ambient : string) :
  or_else apikey (resolve_apikey (cfg w)) = Ok key →
  or_else secretkey (resolve_secretkey (cfg w)) = Ok secret →
  resolve_secretkey (cfg w) = Ok ambient →
  truthy action = true →
  kwargs !! "secretkey" = None →
  let signed :=
    <["timestamp" := VStr (timestamp (now w))]>
      (<["version" := version]>
         (<["action" := action]>
            (<["apikey" := VStr key]> (delete "_raw" kwargs)))) in
  let signature := b64encode (hmac_sha1 secret (signed_string signed)) in
  sent_requests (post w apikey secretkey action version _url kwargs)
  = [Post (default (_api_url (cfg w)) (of_nonempty _url))
          (<["checksum" := VStr signature]> signed)]
  ∧ (<["checksum" := VStr signature]> signed) !! "secretkey" = None
  ∧ (<["checksum" := VStr signature]> signed) !! "_raw" = None
  ∧ (∀ k, k ∉ "_raw" :: post_keys →
        (<["checksum" := VStr signature]> signed) !! k = kwargs !! k).
Proof.
  intros Hkey Hsecret Hamb Hact Hfresh signed signature.
  assert (Hsigned : signed !! "secretkey" = None).
  { unfold signed. rewrite !lookup_insert_ne by done.
    by rewrite lookup_delete_ne. }
  split; [|split; [|split]].
  - by apply (post_sent w apikey secretkey action version _url kwargs
                key secret ambient).
  - by rewrite lookup_insert_ne.
  - unfold signed. rewrite !lookup_insert_ne by done.
    apply lookup_delete_eq.
  - intros k Hk. unfold post_keys in Hk.
    rewrite !not_elem_of_cons in Hk.
    destruct Hk as (? & ? & ? & ? & ? & ? & _).
    unfold signed. rewrite !lookup_insert_ne by done.
    by rewrite lookup_delete_ne.
Qed.

Lemma post_request_witness :
  sent_requests
    (post example_world None None (VStr "deleteAgents") (VInt 2) None
          {[ "agentIds" := VStr "5" ]})
  = [Post "http://monitis.com/api"
       {[ "action" := VStr "deleteAgents"; "agentIds" := VStr "5";
          "apikey" := VStr "abc";
          "checksum" := VStr "Z64MAMIoU4MPj0Xo1dVh4Kt6p2A=";
          "timestamp" := VStr "2011-10-01 03:06:40";
          "version" := VInt 2 ]}].
Proof.
  destruct (post_request example_world None None (VStr "deleteAgents")
              (VInt 2) None {[ "agentIds" := VStr "5" ]}
              "abc" "secret" "secret") as (Hsent & _);
    [reflexivity..|].
  rewrite Hsent. vm_compute. reflexivity.
Defined.

Lemma Monitis_post_sent `{Runtime} (self : instance) (w : world)
    (kwargs : gmap string value) :
  let signed :=
    <["timestamp" := VStr (timestamp (now w))]>
      (<["version" := self_version self]>
         (<["apikey" := of_opt (self_apikey self)]> kwargs)) in
  sent_requests (Monitis_post self w kwargs)
  = match Monitis_checksum self (cfg w) signed with
    | Ok signature =>
        [Post (self_url self) (<["checksum" := VStr signature]> signed)]
    | Raise _ => []
    end.
Proof.
  intros signed. unfold Monitis_post. fold signed. unfold_io.
  destruct (Monitis_checksum self (cfg w) signed); simpl; [|done].
  by destruct (urlopen w _).
Qed.

(** X7: [Monitis.post] forwards what it is called with.  Every request it
    sends goes to the instance's endpoint, and every argument other than the
    four keys the method sets itself is in the request as the caller passed
    it - [_raw] and [action] like any other.  A secret key passed as an
    argument signs the request and is sent along with it. *)
Theorem Monitis_post_forwards_arguments `{Runtime} (self : instance)
    (w : world) (kwargs : gmap string value) :
  (∀ req, req ∈ sent_requests (Monitis_post self w kwargs) →
     request_url req = self_url self
     ∧ submitted req !! "apikey" = Some (of_opt (self_apikey self))
     ∧ ∀ k, k ∉ Monitis_post_keys → submitted req !! k = kwargs !! k)
  ∧ (∀ secret, kwargs !! "secretkey" = Some (VStr secret) →
       ∃ req, sent_requests (Monitis_post self w kwargs) = [req]
              ∧ submitted req !! "secretkey" = Some (VStr secret)
              ∧ submitted req !! "checksum"
                = Some (VStr (b64encode (hmac_sha1 secret
                     (signed_string
                        (<["timestamp" := VStr (timestamp (now w))]>
                           (<["version" := self_version self]>
                              (<["apikey" := of_opt (self_apikey self)]>
                                 (delete "secretkey" kwargs))))))))).
Proof.
  split.
  - intros req. rewrite Monitis_post_sent.
    destruct (Monitis_checksum self (cfg w) _) as [signature|e];
      [|by intros ?%elem_of_nil].
    intros ->%list_elem_of_singleton. simpl.
    split; [done|]. split.
    { rewrite !lookup_insert_ne by done. apply lookup_insert_eq. }
    intros k Hk. unfold Monitis_post_keys in Hk.
    rewrite !not_elem_of_cons in Hk.
    destruct Hk as (? & ? & ? & ? & _).
    by rewrite !lookup_insert_ne.
  - intros secret Hsecret. rewrite Monitis_post_sent.
    set (signed := <["timestamp" := VStr (timestamp (now w))]>
                     (<["version" := self_version self]>
                        (<["apikey" := of_opt (self_apikey self)]> kwargs))).
    assert (Hs : signed !! "secretkey" = Some (VStr secret)).
    { unfold signed. by rewrite !lookup_insert_ne. }
    rewrite (Monitis_checksum_explicit self (cfg w) signed _ Hs).
    assert (Hdel : delete "secretkey" signed
                   = <["timestamp" := VStr (timestamp (now w))]>
                       (<["version" := self_version self]>
                          (<["apikey" := of_opt (self_apikey self)]>
                             (delete "secretkey" kwargs)))).
    { unfold signed. by rewrite !delete_insert_ne. }
    rewrite Hdel. simpl. eexists. split; [done|]. simpl.
    split; [by rewrite lookup_insert_ne|].
    by rewrite lookup_insert_eq.
Qed.

Lemma Monitis_post_forwards_arguments_witness :
  ∃ req,
    sent_requests (Monitis_post signed_in example_world
                     {[ "secretkey" := VStr "s3cret" ]}) = [req]
    ∧ submitted req !! "secretkey" = Some (VStr "s3cret").
Proof.
  destruct (proj2 (Monitis_post_forwards_arguments signed_in example_world
                     {[ "secretkey" := VStr "s3cret" ]}) "s3cret")
    as (req & Hsent & Hkey & _).
  - reflexivity.
  - exists req. split; [exact Hsent|exact Hkey].
Defined.

Lemma credential_of_class (c : config) :
  Monitis_resolve_apikey
    {| self_url := ""; self_apikey := Monitis_apikey c;
       self_secretkey := Monitis_secretkey c; self_validation := "";
       self_version := VNone |} c
  = resolve_apikey c
  ∧ Monitis_resolve_secretkey
      {| self_url := ""; self_apikey := Monitis_apikey c;
         self_secretkey := Monitis_secretkey c; self_validation := "";
         self_version := VNone |} c
    = resolve_secretkey c.
Proof.
  unfold Monitis_resolve_apikey, Monitis_resolve_secretkey,
    resolve_apikey, resolve_secretkey. simpl.
  destruct (Monitis_apikey c), (Monitis_secretkey c); simpl; split;
    try done.
  - by destruct (if Monitis_sandbox c then _ else _).
  - by destruct (if Monitis_sandbox c then _ else _).
  - by destruct (if Monitis_sandbox c then _ else _).
  - by destruct (if Monitis_sandbox c then _ else _).
Qed.

Lemma Monitis_init_unfold (c : config) (apikey secretkey _url : option string)
    (version : value) (validation : option string) :
  Monitis_init c apikey secretkey _url version validation
  = (key ←! or_else apikey (resolve_apikey c);
     secret ←! or_else secretkey (resolve_secretkey c);
     Ok {| self_url := default (_api_url c) (of_nonempty _url);
           self_apikey := Some key; self_secretkey := Some secret;
           self_validation := default "HMACSHA1" (of_nonempty validation);
           self_version := if truthy version then version else VStr "2" |}).
Proof.
  unfold Monitis_init, credential_apikey, credential_secretkey.
  destruct (credential_of_class c) as [-> ->]. done.
Qed.

(** X8: an instance captures its endpoint and credentials when it is
    constructed.  The constructor resolves them as the free functions do;
    afterwards the instance's own resolution returns the captured keys in
    any process state, and every request [Monitis.post] sends goes to the
    captured endpoint with the captured API key, whatever the class
    attributes, the sandbox flag and the environment have become. *)
Theorem Monitis_init_captures `{Runtime} (c : config)
    (apikey secretkey _url : option string) (version : value)
    (validation : option string) (self : instance) :
  Monitis_init c apikey secretkey _url version validation = Ok self →
  ∃ key secret,
    or_else apikey (resolve_apikey c) = Ok key
    ∧ or_else secretkey (resolve_secretkey c) = Ok secret
    ∧ self_url self = default (_api_url c) (of_nonempty _url)
    ∧ truthy (self_version self) = true
    ∧ self_validation self ≠ ""
    ∧ ∀ (w : world) (kwargs : gmap string value),
        Monitis_resolve_apikey self (cfg w) = Ok key
        ∧ Monitis_resolve_secretkey self (cfg w) = Ok secret
        ∧ ∀ req, req ∈ sent_requests (Monitis_post self w kwargs) →
            request_url req = default (_api_url c) (of_nonempty _url)
            ∧ submitted req !! "apikey" = Some (VStr key).
Proof.
  rewrite Monitis_init_unfold.
  destruct (or_else apikey (resolve_apikey c)) as [key|e]; [|done].
  destruct (or_else secretkey (resolve_secretkey c)) as [secret|e]; [|done].
  simpl. intros [= <-]. exists key, secret. simpl.
  split; [done|]. split; [done|]. split; [done|]. split; [|split].
  - by destruct (truthy version) eqn:Hv.
  - destruct validation as [s|]; simpl; [|done]. by case_bool_decide.
  - intros w kwargs. split; [done|]. split; [done|].
    intros req. rewrite Monitis_post_sent.
    destruct (Monitis_checksum _ (cfg w) _) as [signature|e];
      [|by intros ?%elem_of_nil].
    intros ->%list_elem_of_singleton. simpl. split; [done|].
    rewrite !lookup_insert_ne by done. apply lookup_insert_eq.
Qed.

Lemma Monitis_init_captures_witness :
  ∃ key secret,
    or_else None (resolve_apikey keys_in_environment) = Ok key
    ∧ or_else (Some "s") (resolve_secretkey keys_in_environment) = Ok secret
    ∧ key = "abc" ∧ secret = "s".
Proof.
  destruct (Monitis_init_captures keys_in_environment None (Some "s") None
              VNone None
              {| self_url := default_url; self_apikey := Some "abc";
                 self_secretkey := Some "s"; self_validation := "HMACSHA1";
                 self_version := VStr "2" |} eq_refl)
    as (key & secret & Hkey & Hsecret & _).
  exists key, secret. split; [exact Hkey|]. split; [exact Hsecret|].
  vm_compute in Hkey, Hsecret. split; congruence.
Defined.

(** X9: the constructor succeeds exactly when each credential has a source:
    a non-empty argument, a class attribute or the environment variable.  A
    missing API key is reported before a missing secret key. *)
Theorem Monitis_init_needs_credentials (c : config)
    (apikey secretkey _url : option string) (version : value)
    (validation : option string) :
  ((∃ self,
      Monitis_init c apikey secretkey _url version validation = Ok self)
   ↔ ¬ apikey_unset apikey c ∧ ¬ secretkey_unset secretkey c)
  ∧ (apikey_unset apikey c →
     Monitis_init c apikey secretkey _url version validation
     = Raise (MonitisError "The Monitis API key is required"))
  ∧ (¬ apikey_unset apikey c → secretkey_unset secretkey c →
     Monitis_init c apikey secretkey _url version validation
     = Raise (MonitisError "The Monitis secret key is required")).
Proof.
  rewrite Monitis_init_unfold, or_else_unset_apikey.
  destruct (decide (apikey_unset apikey c)) as [Hkey|Hkey].
  { split; [|done]. split; [by intros [? ?]|by intros [? _]]. }
  destruct (or_else_resolves_apikey _ _ Hkey) as [key ->].
  destruct (decide (secretkey_unset secretkey c)) as [Hsec|Hsec].
  { rewrite or_else_unset_secretkey by done.
    split; [|done]. split; [by intros [? ?]|by intros [_ ?]]. }
  destruct (or_else_resolves_secretkey _ _ Hsec) as [secret ->].
  simpl. split; [|done]. split; [done|eauto].
Qed.

Lemma Monitis_init_needs_credentials_witness :
  Monitis_init no_ambient_keys (Some "") (Some "secret") None VNone None
  = Raise (MonitisError "The Monitis API key is required").
Proof.
  apply (Monitis_init_needs_credentials no_ambient_keys (Some "")
           (Some "secret") None VNone None).
  repeat split.
Defined.

Lemma first_set_secretkey (own : option string) (c : config) :
  or_else own (resolve_secretkey c)
  = key_or_raise "The Monitis secret key is required"
      (first_set [of_nonempty own; Monitis_secretkey c;
                  os_environ c !! secretkey_env_name c]).
Proof.
  rewrite or_else_nonempty, resolve_secretkey_env.
  unfold first_set, key_or_raise.
  destruct (of_nonempty own); [done|]. simpl.
  destruct (Monitis_secretkey c); [done|]. simpl.
  by destruct (os_environ c !! secretkey_env_name c).
Qed.

(** X10: which key signs.  [Monitis.checksum] signs with the [secretkey]
    argument when one is passed (a value that is no string, [None]
    included, is a [TypeError]); otherwise with the instance's key when that
    is not empty, then the class attribute, then the environment variable.
    The module-level [checksum] first needs the class attribute or the
    environment variable to be there, and then signs with the argument if
    one is passed.  Neither signs the secret key itself. *)
Theorem checksum_key_selection `{Runtime} (self : instance) (c : config)
    (kwargs : gmap string value) :
  let signature (key : value) :=
    match key with
    | VStr key =>
        Ok (b64encode (hmac_sha1 key
              (signed_string (delete "secretkey" kwargs))))
    | _ => Raise TypeError
    end in
  Monitis_checksum self c kwargs
  = match kwargs !! "secretkey" with
    | Some key => signature key
    | None =>
        key ←! key_or_raise "The Monitis secret key is required"
                 (first_set [of_nonempty (self_secretkey self);
                             Monitis_secretkey c;
                             os_environ c !! secretkey_env_name c]);
        signature (VStr key)
    end
  ∧ checksum c kwargs
    = (ambient ←! key_or_raise "The Monitis secret key is required"
                    (first_set [Monitis_secretkey c;
                                os_environ c !! secretkey_env_name c]);
       signature (default (VStr ambient) (kwargs !! "secretkey"))).
Proof.
  intros signature. split.
  - destruct (kwargs !! "secretkey") as [key|] eqn:Hkey.
    + rewrite (Monitis_checksum_explicit self c kwargs key Hkey).
      by destruct key.
    + unfold Monitis_checksum. rewrite Hkey, first_set_secretkey.
      destruct (key_or_raise _ _) as [key|e]; simpl; [|done].
      by rewrite param_string_loop_eq, delete_id.
  - unfold checksum, pop. rewrite resolve_secretkey_env.
    unfold first_set, key_or_raise. simpl.
    destruct (Monitis_secretkey c) as [k|]; simpl.
    + by destruct (default (VStr k) (kwargs !! "secretkey")).
    + destruct (os_environ c !! secretkey_env_name c) as [k|]; simpl; [|done].
      by destruct (default (VStr k) (kwargs !! "secretkey")).
Qed.

(** ** validate_kwargs: which value reaches the result *)

Lemma pop_either_agree (e : string * string) (kw kw' : gmap string value) :
  (∀ k, spelling e k → kw' !! k = kw !! k) →
  (pop_either e.1 e.2 kw').1 = (pop_either e.1 e.2 kw).1
  ∧ ∀ k, spelling e k →
      (pop_either e.1 e.2 kw').2 !! k = (pop_either e.1 e.2 kw).2 !! k.
Proof.
  intros Hag. destruct e as [lc cc]. unfold spelling in *. simpl in *.
  unfold pop_either, pop. simpl.
  rewrite (Hag lc) by auto.
  assert (Hcc : delete lc kw' !! cc = delete lc kw !! cc).
  { destruct (decide (lc = cc)) as [->|Hne];
      [by rewrite !lookup_delete_eq|].
    rewrite !lookup_delete_ne by done. auto. }
  destruct (is_None (default VNone (kw !! lc))); simpl.
  - rewrite Hcc. split; [done|]. intros k [-> | ->].
    + destruct (decide (cc = lc)) as [->|Hne];
        [by rewrite !lookup_delete_eq|].
      rewrite !(lookup_delete_ne _ cc) by done.
      by rewrite !lookup_delete_eq.
    + by rewrite !lookup_delete_eq.
  - split; [done|]. intros k [-> | ->]; [by rewrite !lookup_delete_eq|].
    exact Hcc.
Qed.

Lemma pop_either_consumes (lc cc : string) (kw : gmap string value) :
  (pop_either lc cc kw).2 !! lc = None.
Proof.
  unfold pop_either, pop. simpl.
  destruct (is_None (default VNone (kw !! lc))); simpl.
  - destruct (decide (cc = lc)) as [->|Hne]; [apply lookup_delete_eq|].
    rewrite lookup_delete_ne by done. apply lookup_delete_eq.
  - apply lookup_delete_eq.
Qed.

Lemma apart_head (e : string * string) (items : list (string * string)) :
  Forall (apart e) items →
  ∀ e', e' ∈ items →
    e.2 ≠ e'.2 ∧ (∀ k, spelling e k → ¬ spelling e' k)
    ∧ (∀ k, spelling e' k → ¬ spelling e k).
Proof.
  intros Hhead e' He'. rewrite Forall_forall in Hhead.
  specialize (Hhead e' He'). unfold apart, spelling in *.
  split; [|split].
  - intros Heq. apply (Hhead e.2); auto.
  - auto.
  - intros k Hk' Hk. by apply (Hhead k).
Qed.

Lemma required_loop_takes (items : list (string * string)) :
  ∀ kw res kw' res',
    all_apart items →
    required_loop items kw res = Ok (kw', res') →
    ∀ e, e ∈ items →
      res' !! e.2 = Some (pop_either e.1 e.2 kw).1
      ∧ is_None (pop_either e.1 e.2 kw).1 = false
      ∧ ∀ k, spelling e k → kw' !! k = (pop_either e.1 e.2 kw).2 !! k.
Proof.
  induction items as [|[lc cc] items IH]; intros kw res kw' res' Hap Hloop e.
  { by intros ?%elem_of_nil. }
  destruct Hap as [Hhead Hap]. cbn [required_loop] in Hloop.
  destruct (pop_either lc cc kw) as [v kw1] eqn:Hpop.
  destruct (is_None v) eqn:Hv; [done|].
  pose proof (required_loop_spec items kw1 (<[cc := v]> res) Hap) as Hspec.
  rewrite Hloop in Hspec. destruct Hspec as (_ & Hkw & _ & _ & Hkeep).
  pose proof (apart_head _ _ Hhead) as Hhd.
  intros [->|He]%elem_of_cons.
  - simpl. rewrite Hpop. simpl. split; [|split; [done|]].
    + rewrite Hkeep; [apply lookup_insert_eq|].
      intros e He. by apply (Hhd e He).
    + intros k Hk. apply Hkw. intros e He. by apply (Hhd e He).
  - destruct (IH _ _ _ _ Hap Hloop e He) as (Hres & Hnn & Hrest).
    apply pop_either_spec in Hpop as (Hoff & _).
    destruct (pop_either_agree e kw kw1) as [Hv1 Hkw1].
    { intros k Hk. apply Hoff. by apply (Hhd e He). }
    rewrite <-Hv1. split; [done|]. split; [done|].
    intros k Hk. rewrite Hrest by done. by apply Hkw1.
Qed.

Lemma optional_loop_takes (items : list (string * string)) :
  ∀ kw res kw' res',
    all_apart items →
    optional_loop items kw res = (kw', res') →
    ∀ e, e ∈ items →
      res' !! e.2
      = (if is_None (pop_either e.1 e.2 kw).1 then res !! e.2
         else Some (pop_either e.1 e.2 kw).1)
      ∧ ∀ k, spelling e k → kw' !! k = (pop_either e.1 e.2 kw).2 !! k.
Proof.
  induction items as [|[lc cc] items IH]; intros kw res kw' res' Hap Hloop e.
  { by intros ?%elem_of_nil. }
  destruct Hap as [Hhead Hap]. cbn [optional_loop] in Hloop.
  destruct (pop_either lc cc kw) as [v kw1] eqn:Hpop.
  pose proof (apart_head _ _ Hhead) as Hhd.
  assert (∃ res1, optional_loop items kw1 res1 = (kw', res')
                  ∧ res1 !! cc = (if is_None v then res !! cc else Some v)
                  ∧ ∀ k, k ≠ cc → res1 !! k = res !! k)
    as (res1 & Hloop1 & Hcc & Hother).
  { destruct (is_None v); eexists; (split; [exact Hloop|]).
    - done.
    - split; [apply lookup_insert_eq|].
      intros k Hk. by apply lookup_insert_ne. }
  destruct (optional_loop_spec items kw1 res1 kw' res' Hap Hloop1)
    as (Hkw & _ & _ & _ & _ & Hkeep).
  intros [->|He]%elem_of_cons.
  - simpl. rewrite Hpop. simpl. split.
    + rewrite Hkeep; [done|]. intros e He. by apply (Hhd e He).
    + intros k Hk. apply Hkw. intros e He. by apply (Hhd e He).
  - destruct (IH _ _ _ _ Hap Hloop1 e He) as (Hres & Hrest).
    apply pop_either_spec in Hpop as (Hoff & _).
    destruct (pop_either_agree e kw kw1) as [Hv1 Hkw1].
    { intros k Hk. apply Hoff. by apply (Hhd e He). }
    rewrite <-Hv1. split.
    + rewrite Hres, Hother; [done|].
      intros Heq. by apply (Hhd e He).
    + intros k Hk. rewrite Hrest by done. by apply Hkw1.
Qed.

Section validate_kwargs_merged.
Context `{Runtime}.
Variables (required optional : list string).
Variables (kwargs res : gmap string value).
Hypothesis names_nonempty : Forall (λ w, w ≠ "") (required ++ optional).
Hypothesis names_injective : underscore_injective (required ++ optional).
Hypothesis names_disjoint : ∀ w, w ∈ required → w ∉ optional.
Hypothesis returns :
  validate_kwargs (NameList required) (NameList optional) kwargs = Ok res.

Lemma validate_kwargs_merged (e : string * string) :
  entry_of (required ++ optional) e →
  res !! e.2 = merged kwargs e
  ∧ (e.1 ≠ e.2 → res !! e.1 = None)
  ∧ (entry_of required e → supplied_by kwargs e).
Proof.
  intros He.
  apply Forall_app in names_nonempty as [Hnr Hno'].
  destruct (names_to_dict_ok required ∅ Hnr) as [dr Hdr].
  destruct (names_to_dict_ok optional ∅ Hno') as [dopt Hdo].
  pose proof (underscore_injective_app_l _ _ names_injective) as Hir.
  pose proof (underscore_injective_app_r _ _ names_injective) as Hio.
  pose proof returns as Hret.
  rewrite (validate_kwargs_unfold _ _ dr dopt) in Hret by done.
  pose proof (required_loop_spec (dict_items dr) kwargs ∅
                (dict_items_all_apart required dr Hdr Hir)) as Hloop.
  assert (Hitr : ∀ e, e ∈ dict_items dr ↔ entry_of required e).
  { intros [lc cc]. rewrite elem_of_dict_items.
    apply (as_dict_entries required dr Hdr Hir (lc, cc)). }
  assert (Hito : ∀ e, e ∈ dict_items dopt ↔ entry_of optional e).
  { intros [lc cc]. rewrite elem_of_dict_items.
    apply (as_dict_entries optional dopt Hdo Hio (lc, cc)). }
  destruct (required_loop (dict_items dr) kwargs ∅) as [[kw1 res1]|ex]
    eqn:Hrl; [|done].
  destruct Hloop as (Hall1 & Hkw1 & _ & _ & Hkeep1).
  pose proof (required_loop_takes _ _ _ _ _
                (dict_items_all_apart required dr Hdr Hir) Hrl) as Htake1.
  destruct (optional_loop (dict_items dopt) kw1 res1) as [kw2 res2] eqn:Hol.
  pose proof (optional_loop_takes _ _ _ _ _
                (dict_items_all_apart optional dopt Hdo Hio) Hol) as Htake2.
  apply optional_loop_spec in Hol as (Hkw2 & _ & _ & _ & _ & Hkeep2);
    [|by apply (dict_items_all_apart optional)].
  simpl in Hret. injection Hret as <-.
  (* entries of different names share no spelling *)
  assert (Hapart : ∀ e',
    entry_of (required ++ optional) e' → e.2 ≠ e'.2 → apart e e').
  { intros e' He' Hne. by apply (entries_apart (required ++ optional)). }
  assert (Hlc : e.1 ≠ e.2 → ∀ e',
    entry_of (required ++ optional) e' → e.1 ≠ e'.2).
  { intros Hne e' He' Heq.
    assert (e.2 ≠ e'.2) as Hne' by congruence.
    apply (Hapart e' He' Hne' e.1); unfold spelling; auto. }
  assert (Hin : e.2 ∈ required ∨ e.2 ∈ optional).
  { apply elem_of_app, He. }
  unfold merged.
  destruct (pop_either e.1 e.2 kwargs) as [v kwp] eqn:Hpop.
  pose proof (pop_either_consumes e.1 e.2 kwargs) as Hgone.
  rewrite Hpop in Hgone. simpl in Hgone.
  destruct Hin as [Hin|Hin].
  - (* a required name *)
    assert (Her : entry_of required e) by (split; [done|apply He]).
    destruct (Htake1 e (proj2 (Hitr e) Her)) as (Hres1 & Hnn & Hrest1).
    rewrite Hpop in Hres1, Hnn, Hrest1. simpl in Hres1, Hnn, Hrest1.
    assert (Hoff : ∀ e', e' ∈ dict_items dopt → apart e e').
    { intros e' He'. apply Hito in He'. apply Hapart.
      - by apply entry_of_app_r.
      - intros Heq. apply (names_disjoint e.2 Hin). rewrite Heq.
        apply He'. }
    assert (Hkw : ∀ k, spelling e k → kw2 !! k = kwp !! k).
    { intros k Hk. rewrite Hkw2, Hrest1; [done..|].
      intros e' He' Hk'. by apply (Hoff e' He' k). }
    assert (Hres2 : res2 !! e.2 = Some v).
    { rewrite Hkeep2; [done|]. intros e' He' Heq.
      apply (Hoff e' He' e.2); unfold spelling; auto. }
    split; [|split].
    + rewrite lookup_union, Hkw, Hres2, Hnn by (unfold spelling; auto).
      by destruct (kwp !! e.2).
    + intros Hne. apply lookup_union_None. split.
      * rewrite Hkw by (unfold spelling; auto). done.
      * rewrite Hkeep2, Hkeep1; [apply lookup_empty|..].
        -- intros e' He'. apply Hlc; [done|].
           by apply entry_of_app_l, Hitr.
        -- intros e' He'. apply Hlc; [done|].
           by apply entry_of_app_r, Hito.
    + intros _. rewrite Forall_forall in Hall1. by apply Hall1, Hitr.
  - (* an optional name *)
    assert (Heo : entry_of optional e) by (split; [done|apply He]).
    assert (Hnr' : e.2 ∉ required).
    { intros Hr. by apply (names_disjoint e.2 Hr). }
    assert (Hoff : ∀ e', e' ∈ dict_items dr → apart e e').
    { intros e' He'. apply Hitr in He'. apply Hapart.
      - by apply entry_of_app_l.
      - intros Heq. apply Hnr'. rewrite Heq. apply He'. }
    destruct (pop_either_agree e kwargs kw1) as [Hv1 Hkwp1].
    { intros k Hk. apply Hkw1. intros e' He' Hk'.
      by apply (Hoff e' He' k). }
    destruct (Htake2 e (proj2 (Hito e) Heo)) as (Hres2 & Hrest2).
    rewrite Hv1, Hpop in Hres2. simpl in Hres2.
    rewrite Hpop in Hkwp1. simpl in Hkwp1.
    assert (Hres1 : res1 !! e.2 = None).
    { rewrite Hkeep1; [apply lookup_empty|]. intros e' He' Heq.
      apply (Hoff e' He' e.2); unfold spelling; auto. }
    assert (Hkw : ∀ k, spelling e k → kw2 !! k = kwp !! k).
    { intros k Hk. rewrite Hrest2 by done. by apply Hkwp1. }
    split; [|split].
    + rewrite lookup_union, Hkw, Hres2, Hres1 by (unfold spelling; auto).
      destruct (kwp !! e.2); [by destruct (is_None v)|].
      by destruct (is_None v).
    + intros Hne. apply lookup_union_None. split.
      * rewrite Hkw by (unfold spelling; auto). done.
      * rewrite Hkeep2, Hkeep1; [apply lookup_empty|..].
        -- intros e' He'. apply Hlc; [done|].
           by apply entry_of_app_l, Hitr.
        -- intros e' He'. apply Hlc; [done|].
           by apply entry_of_app_r, Hito.
    + intros [Hr _]. done.
Qed.
End validate_kwargs_merged.

Lemma merged_cases (kwargs : gmap string value) (e : string * string) :
  (∀ v, kwargs !! e.2 = Some v →
        (v ≠ VNone ∨ ∃ u, u ≠ VNone ∧ kwargs !! e.1 = Some u) →
        merged kwargs e = Some v)
  ∧ (∀ u, kwargs !! e.1 = Some u → u ≠ VNone → kwargs !! e.2 = None →
          merged kwargs e = Some u)
  ∧ (¬ supplied_by kwargs e → merged kwargs e = None)
  ∧ (∀ v, merged kwargs e = Some v →
          kwargs !! e.1 = Some v ∨ kwargs !! e.2 = Some v).
Proof.
  destruct e as [lc cc]. unfold merged, pop_either, pop, supplied_by. simpl.
  destruct (decide (lc = cc)) as [<-|Hne].
  - destruct (kwargs !! lc) as [[]|] eqn:Hu; simpl;
      rewrite ?lookup_delete_eq, ?Hu; simpl;
      rewrite ?lookup_delete_eq; simpl;
      (split; [|split; [|split]]);
      first [ by intros ? [= <-] | by intros ? [= <-] [?|(? & ? & [= <-])]
            | by intros ? [= <-]; auto | done
            | intros Hno; destruct Hno; eexists; split; [|left; done]; done ].
  - destruct (kwargs !! lc) as [[]|] eqn:Hu; simpl;
      rewrite ?lookup_delete_eq, ?lookup_delete_ne by done;
      destruct (kwargs !! cc) as [[]|] eqn:Hx; simpl;
      rewrite ?lookup_delete_eq, ?lookup_delete_ne, ?Hx by done; simpl;
      (split; [|split; [|split]]);
      first [ done
            | by intros ? [= <-]; auto
            | by intros ? [= <-] [?|(? & ? & [=])]
            | by intros ? [= <-] [?|(? & ? & [= <-])]
            | by intros ? [= <-] ? ?
            | intros Hno; destruct Hno;
              first [ by eexists; split; [|left; reflexivity]
                    | by eexists; split; [|right; reflexivity] ] ].
Qed.

Lemma well_formed_names_intro (required optional : list string) :
  bool_decide (Forall (λ w, w ≠ "") (required ++ optional)) = true →
  bool_decide (NoDup (camel2under <$> (required ++ optional))) = true →
  bool_decide (Forall (λ w, w ∉ optional) required) = true →
  well_formed_names required optional.
Proof.
  intros Hne%bool_decide_eq_true Hnd%bool_decide_eq_true
    Hdis%bool_decide_eq_true.
  split; [done|]. split; [by apply underscore_injective_NoDup|].
  by apply Forall_forall.
Qed.

Lemma agent_info_well_formed : well_formed_names ["agentId"] ["loadTests"].
Proof. by apply well_formed_names_intro; vm_compute. Qed.

(** X11: how the two spellings of a listed argument are merged.  For
    well-formed name lists and a call that returned: when the provider-format
    argument is there, its value is the result's - if the underscore spelling
    is supplied too, even when the provider-format value is [None]; the
    underscore spelling alone is moved to the provider-format name; the
    underscore name itself never reaches the result; and a listed argument
    supplied under neither spelling can only be an optional one and is
    absent from the result, so for the listed names [None] means absent. *)
Theorem validate_kwargs_merges_spellings `{Runtime}
    (required optional : list string) (kwargs res : gmap string value)
    (e : string * string) :
  well_formed_names required optional →
  validate_kwargs (NameList required) (NameList optional) kwargs = Ok res →
  entry_of (required ++ optional) e →
  (∀ v, kwargs !! e.2 = Some v →
        (v ≠ VNone ∨ ∃ u, u ≠ VNone ∧ kwargs !! e.1 = Some u) →
        res !! e.2 = Some v)
  ∧ (∀ u, kwargs !! e.1 = Some u → u ≠ VNone → kwargs !! e.2 = None →
          res !! e.2 = Some u)
  ∧ (e.1 ≠ e.2 → res !! e.1 = None)
  ∧ (¬ supplied_by kwargs e → entry_of optional e ∧ res !! e.2 = None).
Proof.
  intros (Hne & Hinj & Hdis) Hres He.
  destruct (validate_kwargs_merged required optional kwargs res
              Hne Hinj Hdis Hres e He) as (Hm & Hgone & Hsup).
  destruct (merged_cases kwargs e) as (Hboth & Hlc & Hnone & _).
  rewrite Hm. split; [done|]. split; [done|]. split; [done|].
  intros Hno. split; [|by apply Hnone].
  destruct He as [[Hin|Hin]%elem_of_app Hlc'].
  - destruct Hno. apply Hsup. by split.
  - by split.
Qed.

Lemma validate_kwargs_merges_spellings_witness :
  ({[ "agentId" := VInt 7; "loadTests" := VBool true ]}
     : gmap string value) !! "agentId" = Some (VInt 7).
Proof.
  refine (proj1 (validate_kwargs_merges_spellings ["agentId"] ["loadTests"]
                   {[ "agent_id" := VInt 5; "agentId" := VInt 7;
                      "load_tests" := VBool true ]}
                   {[ "agentId" := VInt 7; "loadTests" := VBool true ]}
                   ("agent_id", "agentId") agent_info_well_formed _ _)
            (VInt 7) _ _).
  - vm_compute. reflexivity.
  - split; [apply elem_of_cons; by left|reflexivity].
  - reflexivity.
  - left. discriminate.
Defined.

(** X12: the normalizer invents nothing.  For well-formed name lists, every
    binding of the result is an argument of the call under the same name, or
    the argument given under the underscore spelling of that name. *)
Theorem validate_kwargs_invents_nothing `{Runtime}
    (required optional : list string) (kwargs res : gmap string value)
    (k : string) (v : value) :
  well_formed_names required optional →
  validate_kwargs (NameList required) (NameList optional) kwargs = Ok res →
  res !! k = Some v →
  kwargs !! k = Some v
  ∨ ∃ e, entry_of (required ++ optional) e ∧ k = e.2
         ∧ kwargs !! e.1 = Some v.
Proof.
  intros (Hne & Hinj & Hdis) Hres Hk.
  pose proof (validate_kwargs_merged required optional kwargs res
                Hne Hinj Hdis Hres) as Hm.
  destruct (decide (k ∈ required ++ optional)) as [Hin|Hnin].
  - (* a provider-format name *)
    assert (k ≠ "") as Hk0.
    { rewrite Forall_forall in Hne. by apply Hne. }
    pose proof (camel2under_eq k Hk0) as Hlc.
    set (lc := lower _) in Hlc.
    destruct (Hm (lc, k)) as (Hmerged & _); [by split|].
    simpl in Hmerged. rewrite Hmerged in Hk.
    destruct (merged_cases kwargs (lc, k)) as (_ & _ & _ & Hfrom).
    destruct (Hfrom v Hk) as [Hv|Hv]; [|by left].
    right. exists (lc, k). by repeat split.
  - destruct (decide (Ok k ∈ camel2under <$> (required ++ optional)))
      as [Hlc|Hnlc].
    + (* the underscore spelling of a name *)
      apply list_elem_of_fmap in Hlc as (cc & Hcc & Hin).
      destruct (Hm (k, cc)) as (_ & Hgone & _); [by split|].
      simpl in Hgone. rewrite Hgone in Hk; [done|].
      intros ->. done.
    + (* no spelling of a listed name *)
      left.
      destruct (validate_kwargs_returns required optional kwargs Hne Hinj)
        as (res' & Hres' & _ & _ & Hother).
      { intros e He. apply (Hm e); [by apply entry_of_app_l|done]. }
      rewrite Hres in Hres'. injection Hres' as <-.
      rewrite <-Hother; [done|].
      intros e [He Helc] [-> | ->]; [|done].
      apply Hnlc. rewrite <-Helc. by apply list_elem_of_fmap_2.
Qed.

Lemma validate_kwargs_invents_nothing_witness :
  ({[ "agent_id" := VInt 5 ]} : gmap string value) !! "agentId"
  = Some (VInt 5)
  ∨ ∃ e, entry_of (["agentId"] ++ ["loadTests"]) e ∧ "agentId" = e.2
         ∧ ({[ "agent_id" := VInt 5 ]} : gmap string value) !! e.1
           = Some (VInt 5).
Proof.
  apply (validate_kwargs_invents_nothing ["agentId"] ["loadTests"]
           {[ "agent_id" := VInt 5 ]} {[ "agentId" := VInt 5 ]}
           "agentId" (VInt 5) agent_info_well_formed).
  - vm_compute. reflexivity.
  - reflexivity.
Defined.

Lemma names_to_dict_empty_name (words : list string) :
  ∀ temp, "" ∈ words → names_to_dict words temp = Raise IndexError.
Proof.
  induction words as [|word rest IH]; intros temp Hin.
  { by apply elem_of_nil in Hin. }
  simpl. destruct (decide (word = "")) as [->|Hne]; [done|].
  rewrite camel2under_eq by done. simpl. apply IH.
  apply elem_of_cons in Hin as [?|?]; [congruence|done].
Qed.

Lemma required_loop_error (items : list (string * string)) :
  ∀ kw res ex,
    required_loop items kw res = Raise ex →
    ∃ msg, ex = MonitisError msg.
Proof.
  induction items as [|[lc cc] items IH]; intros kw res ex; [done|].
  cbn [required_loop]. destruct (pop_either lc cc kw) as [v kw1].
  destruct (is_None v); [intros [= <-]; eauto|]. apply IH.
Qed.

Lemma validate_kwargs_raises_MonitisError `{Runtime}
    (required optional : list string) (kwargs : gmap string value)
    (ex : exn) :
  Forall (λ w, w ≠ "") (required ++ optional) →
  validate_kwargs (NameList required) (NameList optional) kwargs = Raise ex →
  ∃ msg, ex = MonitisError msg.
Proof.
  intros [Hr Ho]%Forall_app. unfold validate_kwargs, as_dict.
  destruct (names_to_dict_ok required ∅ Hr) as [dr ->].
  destruct (names_to_dict_ok optional ∅ Ho) as [dopt ->]. simpl.
  destruct (required_loop (dict_items dr) kwargs ∅) as [[kw1 res1]|ex']
    eqn:Hloop; simpl.
  - by destruct (optional_loop (dict_items dopt) kw1 res1).
  - intros [= <-]. by apply required_loop_error in Hloop.
Qed.

(** X13: an empty name in either list makes the normalizer fail with an
    [IndexError], whatever the arguments of the call are, and nothing else
    does: with non-empty names every failure is a [MonitisError], so the
    normalizer only ever raises these two errors. *)
Theorem validate_kwargs_empty_name `{Runtime}
    (required optional : list string) (kwargs : gmap string value) :
  (validate_kwargs (NameList required) (NameList optional) kwargs
   = Raise IndexError
   ↔ "" ∈ required ++ optional)
  ∧ (∀ ex,
       validate_kwargs (NameList required) (NameList optional) kwargs
       = Raise ex →
       if decide ("" ∈ required ++ optional) then ex = IndexError
       else ∃ msg, ex = MonitisError msg).
Proof.
  assert (Hempty : "" ∈ required ++ optional →
    validate_kwargs (NameList required) (NameList optional) kwargs
    = Raise IndexError).
  { unfold validate_kwargs, as_dict.
    intros [Hin|Hin]%elem_of_app.
    - by rewrite names_to_dict_empty_name.
    - destruct (decide ("" ∈ required)) as [Hr|Hr].
      { by rewrite names_to_dict_empty_name. }
      assert (Forall (λ w, w ≠ "") required) as Hne.
      { apply Forall_forall. intros w Hw ->. done. }
      destruct (names_to_dict_ok required ∅ Hne) as [dr ->]. simpl.
      by rewrite names_to_dict_empty_name. }
  assert (Hother : "" ∉ required ++ optional → ∀ ex,
    validate_kwargs (NameList required) (NameList optional) kwargs
    = Raise ex → ∃ msg, ex = MonitisError msg).
  { intros Hnin ex. apply validate_kwargs_raises_MonitisError.
    apply Forall_forall. intros w Hw ->. done. }
  split.
  - split; [|done]. intros Hraise.
    destruct (decide ("" ∈ required ++ optional)) as [|Hnin]; [done|].
    by destruct (Hother Hnin _ Hraise).
  - intros ex Hraise.
    destruct (decide ("" ∈ required ++ optional)) as [Hin|Hnin].
    + rewrite (Hempty Hin) in Hraise. by injection Hraise as <-.
    + by apply Hother.
Qed.

(** X14: the name lists of all six calls of agent.py are well formed: no
    name is empty, no two names of a call share an underscore form, and no
    name is both required and optional.  So what is proved of the normalizer
    for well-formed lists holds for every call of agent.py; none of them can
    fail with an [IndexError]. *)
Theorem agent_names_well_formed `{Runtime} :
  Forall (λ names, well_formed_names names.1 names.2) agent_names
  ∧ ∀ names kwargs,
      names ∈ agent_names →
      validate_kwargs (NameList names.1) (NameList names.2) kwargs
      ≠ Raise IndexError.
Proof.
  assert (Forall (λ names, well_formed_names names.1 names.2) agent_names)
    as Hwf.
  { unfold agent_names.
    repeat (apply Forall_cons; split;
            [by apply well_formed_names_intro; vm_compute|]).
    apply Forall_nil_2. }
  split; [done|].
  intros names kwargs Hin Hraise. rewrite Forall_forall in Hwf.
  destruct (Hwf names Hin) as (Hne & _).
  by destruct (validate_kwargs_raises_MonitisError _ _ _ _ Hne Hraise).
Qed.

Lemma agent_names_well_formed_witness :
  validate_kwargs (NameList ["agentKey"]) (NameList ["timezone"]) ∅
  ≠ Raise IndexError.
Proof.
  apply (proj2 agent_names_well_formed (["agentKey"], ["timezone"]) ∅).
  apply (bool_decide_unpack _). vm_compute. exact I.
Defined.



(** ** Sandbox and production *)

(** X16: the sandbox flag switches the endpoint and the key together.  When
    the caller names neither and no class-level key is set, a request of
    [get] or [post] goes to the sandbox with the sandbox key of the
    environment, or to production with the production key; never to one
    with the key of the other. *)
Theorem sandbox_flag_switches_endpoint_and_key `{Runtime} (w : world)
    (action version : value) (kwargs : gmap string value) :
  Monitis_apikey (cfg w) = None →
  let endpoint :=
    if Monitis_sandbox (cfg w) then "http://sandbox.monitis.com/api"
    else "http://monitis.com/api" in
  let apikey :=
    VStr <$> (os_environ (cfg w)
                !! (if Monitis_sandbox (cfg w) then "MONITIS_SANDBOX_APIKEY"
                    else "MONITIS_APIKEY")) in
  (∀ req, req ∈ sent_requests (get w None action version None kwargs) →
     request_url req = endpoint ∧ submitted req !! "apikey" = apikey)
  ∧ (∀ req, req ∈ sent_requests (post w None None action version None kwargs) →
       request_url req = endpoint ∧ submitted req !! "apikey" = apikey).
Proof.
  intros Hcls endpoint apikey. subst endpoint apikey.
  assert (Hkey : or_else None (resolve_apikey (cfg w))
                 = match os_environ (cfg w)
                           !! (if Monitis_sandbox (cfg w)
                               then "MONITIS_SANDBOX_APIKEY"
                               else "MONITIS_APIKEY") with
                   | Some key => Ok key
                   | None => Raise (MonitisError
                                      "The Monitis API key is required")
                   end).
  { unfold or_else, resolve_apikey, environ_key. rewrite Hcls.
    by destruct (Monitis_sandbox (cfg w)). }
  split; intros req.
  - rewrite get_sent_cases, Hkey.
    destruct (os_environ (cfg w) !! _) as [key|];
      [|by intros ?%elem_of_nil].
    destruct (bool_decide (key = "") || negb (truthy action));
      [by intros ?%elem_of_nil|].
    intros ->%list_elem_of_singleton. simpl. split.
    + unfold _api_url. by destruct (Monitis_sandbox (cfg w)).
    + apply lookup_insert_eq.
  - rewrite post_sent_cases, Hkey.
    destruct (os_environ (cfg w) !! _) as [key|];
      [|by intros ?%elem_of_nil].
    destruct (or_else None (resolve_secretkey (cfg w))) as [secret|e];
      [|by intros ?%elem_of_nil].
    cbv zeta. destruct (truthy action); [|by intros ?%elem_of_nil].
    destruct (checksum (cfg w) _) as [signature|e];
      [|by intros ?%elem_of_nil].
    intros ->%list_elem_of_singleton. simpl. split.
    + unfold _api_url. by destruct (Monitis_sandbox (cfg w)).
    + rewrite !lookup_insert_ne by done. apply lookup_insert_eq.
Qed.

Lemma sandbox_flag_switches_endpoint_and_key_witness :
  request_url (Get "http://sandbox.monitis.com/api"
                   [("apikey", VStr "sbx"); ("action", VStr "agents");
                    ("output", VStr "JSON"); ("version", VStr "2")])
  = "http://sandbox.monitis.com/api"
  ∧ submitted (Get "http://sandbox.monitis.com/api"
                   [("apikey", VStr "sbx"); ("action", VStr "agents");
                    ("output", VStr "JSON"); ("version", VStr "2")])
      !! "apikey"
    = Some (VStr "sbx").
Proof.
  apply (proj1 (sandbox_flag_switches_endpoint_and_key
                  {| cfg := sandbox_config; now := example_clock;
                     urlopen := replying "{}" |}
                  (VStr "agents") (VStr "2") ∅ eq_refl)).
  apply (list_elem_of_here _ []).
Defined.

(** X17: [get] and [post] differ on an empty API key.  When the class-level
    API key is the empty string and the call names no key, [get] refuses
    the call before sending anything, while [post] sends its request with
    the empty key. *)
Theorem empty_apikey_get_refuses_post_sends `{Runtime} (w : world)
    (apikey secretkey : option string) (action version : value)
    (_url : option string) (kwargs : gmap string value)
    (secret ambient : string) :
  Monitis_apikey (cfg w) = Some "" → of_nonempty apikey = None →
  or_else secretkey (resolve_secretkey (cfg w)) = Ok secret →
  resolve_secretkey (cfg w) = Ok ambient →
  truthy action = true → kwargs !! "secretkey" = None →
  get w apikey action version _url kwargs
  = ([], Raise (MonitisError "get: apikey is required"))
  ∧ ∃ req,
      sent_requests (post w apikey secretkey action version _url kwargs)
      = [req]
      ∧ submitted req !! "apikey" = Some (VStr "").
Proof.
  intros Hcls Hexp Hsecret Hamb Hact Hfresh.
  assert (Hkey : or_else apikey (resolve_apikey (cfg w)) = Ok "").
  { rewrite or_else_nonempty, Hexp. unfold resolve_apikey. by rewrite Hcls. }
  split.
  - unfold get. rewrite Hkey.
    by destruct (pop "_raw" (VBool false) kwargs) as [_raw kw].
  - eexists. split.
    + by apply (post_sent w apikey secretkey action version _url kwargs
                  "" secret ambient).
    + simpl. rewrite !lookup_insert_ne by done. apply lookup_insert_eq.
Qed.

Lemma empty_apikey_get_refuses_post_sends_witness :
  get {| cfg := {| Monitis_debug := false; Monitis_sandbox := false;
                   Monitis_apikey := Some "";
                   Monitis_secretkey := Some "secret"; os_environ := ∅ |};
         now := example_clock; urlopen := replying "{}" |}
      None (VStr "agents") (VStr "2") None ∅
  = ([], Raise (MonitisError "get: apikey is required")).
Proof.
  apply (empty_apikey_get_refuses_post_sends
           {| cfg := {| Monitis_debug := false; Monitis_sandbox := false;
                        Monitis_apikey := Some "";
                        Monitis_secretkey := Some "secret";
                        os_environ := ∅ |};
              now := example_clock; urlopen := replying "{}" |}
           None None (VStr "agents") (VStr "2") None ∅ "secret" "secret");
    reflexivity.
Defined.

(** ** Time stamps *)

Lemma writes_zero_padded_2 (n : Z) :
  0 ≤ n ≤ 99 → writes 2 n (zero_padded 2 n) = true.
Proof.
  intros Hn.
  assert (forallb (λ n, writes 2 n (zero_padded 2 n)) (seqZ 0 100) = true)
    as Hall by (vm_compute; reflexivity).
  rewrite forallb_forall in Hall. apply Hall.
  apply list_elem_of_In, elem_of_seqZ. lia.
Qed.

Lemma writes_zero_padded_4 (n : Z) :
  1900 ≤ n ≤ 9999 → writes 4 n (zero_padded 4 n) = true.
Proof.
  intros Hn.
  assert (forallb (λ n, writes 4 n (zero_padded 4 n)) (seqZ 1900 8100)
          = true) as Hall by (vm_compute; reflexivity).
  rewrite forallb_forall in Hall. apply Hall.
  apply list_elem_of_In, elem_of_seqZ. lia.
Qed.

Lemma writes_length (width : nat) (n : Z) (s : string) :
  writes width n s = true → String.length s = width.
Proof.
  unfold writes. intros [[Hlen _]%andb_true_iff _]%andb_true_iff.
  by apply bool_decide_eq_true in Hlen.
Qed.

(** X18: the time stamp has the form the API asks for.  For a clock whose
    fields are in range it is the year in four digits, month, day, hour,
    minute and second in two digits each, separated by [-], [-], a blank,
    [:] and [:]; each field reads back as the number of the clock; the whole
    is 19 characters long. *)
Theorem timestamp_shape (now : clock) :
  in_range (utcnow now) →
  ∃ Y M D h m s,
    timestamp now
    = Y +:+ "-" +:+ M +:+ "-" +:+ D +:+ " " +:+ h +:+ ":" +:+ m +:+ ":" +:+ s
    ∧ writes 4 (year (utcnow now)) Y = true
    ∧ writes 2 (month (utcnow now)) M = true
    ∧ writes 2 (day (utcnow now)) D = true
    ∧ writes 2 (hour (utcnow now)) h = true
    ∧ writes 2 (minute (utcnow now)) m = true
    ∧ writes 2 (second (utcnow now)) s = true
    ∧ String.length (timestamp now) = 19%nat.
Proof.
  intros (HY & HM & HD & Hh & Hm & Hs).
  pose proof (writes_zero_padded_4 (year (utcnow now)) HY) as WY.
  pose proof (writes_zero_padded_2 (month (utcnow now)) ltac:(lia)) as WM.
  pose proof (writes_zero_padded_2 (day (utcnow now)) ltac:(lia)) as WD.
  pose proof (writes_zero_padded_2 (hour (utcnow now)) ltac:(lia)) as Wh.
  pose proof (writes_zero_padded_2 (minute (utcnow now)) ltac:(lia)) as Wm.
  pose proof (writes_zero_padded_2 (second (utcnow now)) ltac:(lia)) as Ws.
  eexists _, _, _, _, _, _. split; [reflexivity|].
  repeat (split; [done|]).
  unfold timestamp, strftime_F_T.
  rewrite !append_length.
  rewrite (writes_length _ _ _ WY), (writes_length _ _ _ WM),
    (writes_length _ _ _ WD), (writes_length _ _ _ Wh),
    (writes_length _ _ _ Wm), (writes_length _ _ _ Ws).
  reflexivity.
Qed.

Lemma timestamp_shape_witness :
  String.length (timestamp example_clock) = 19%nat.
Proof.
  destruct (timestamp_shape example_clock) as (Y & M & D & h & m & s & Hts).
  - unfold in_range. simpl. lia.
  - apply Hts.
Defined.

(** ** Signing and verifying *)

(** X19: what is sent verifies.  When the caller passes neither a checksum
    nor a secret key among the parameters, the checksum in the request of
    [post], and in that of [Monitis.post] for an instance with a key of its
    own, is the one that anyone who holds the secret key computes over the
    other parameters of the request as they were sent. *)
Theorem sent_checksum_verifies `{Runtime} (w : world) (self : instance)
    (apikey secretkey : option string) (action version : value)
    (_url : option string) (kwargs : gmap string value)
    (key secret ambient : string) :
  kwargs !! "checksum" = None → kwargs !! "secretkey" = None →
  let verifies (req : request) :=
    ∃ signature,
      submitted req !! "checksum" = Some (VStr signature)
      ∧ ∀ (verifier : instance) (c : config),
          Monitis_checksum verifier c
            (<["secretkey" := VStr secret]>
               (delete "checksum" (submitted req)))
          = Ok signature in
  (or_else apikey (resolve_apikey (cfg w)) = Ok key →
   or_else secretkey (resolve_secretkey (cfg w)) = Ok secret →
   resolve_secretkey (cfg w) = Ok ambient →
   truthy action = true →
   ∃ req,
     sent_requests (post w apikey secretkey action version _url kwargs)
     = [req]
     ∧ verifies req)
  ∧ (self_secretkey self = Some secret → secret ≠ "" →
     ∃ req, sent_requests (Monitis_post self w kwargs) = [req]
            ∧ verifies req).
Proof.
  intros Hsum Hfresh verifies.
  assert (Hverify : ∀ url signed,
    signed !! "checksum" = None → signed !! "secretkey" = None →
    verifies (Post url
                (<["checksum" :=
                     VStr (b64encode (hmac_sha1 secret
                                        (signed_string signed)))]> signed))).
  { intros url signed Hs Hk. eexists. simpl. split.
    - apply lookup_insert_eq.
    - intros verifier c. rewrite delete_insert_id by done.
      rewrite (Monitis_checksum_explicit verifier c _ (VStr secret))
        by apply lookup_insert_eq.
      by rewrite delete_insert_id. }
  split.
  - intros Hkey Hsecret Hamb Hact. eexists. split.
    + by apply (post_sent w apikey secretkey action version _url kwargs
                  key secret ambient).
    + apply Hverify; rewrite !lookup_insert_ne by done;
        by rewrite lookup_delete_ne.
  - intros Hown Hne. rewrite Monitis_post_sent.
    set (signed := <["timestamp" := VStr (timestamp (now w))]>
                     (<["version" := self_version self]>
                        (<["apikey" := of_opt (self_apikey self)]> kwargs))).
    assert (signed !! "checksum" = None ∧ signed !! "secretkey" = None)
      as [Hs Hk].
    { unfold signed. by rewrite !lookup_insert_ne. }
    rewrite (Monitis_checksum_own_key self (cfg w) signed secret) by done.
    simpl. eexists. split; [done|]. by apply Hverify.
Qed.

Lemma sent_checksum_verifies_witness :
  ∃ req,
    sent_requests (Monitis_post signed_in example_world
                     {[ "action" := VStr "agents" ]}) = [req]
    ∧ ∃ signature,
        submitted req !! "checksum" = Some (VStr signature)
        ∧ ∀ (verifier : instance) (c : config),
            Monitis_checksum verifier c
              (<["secretkey" := VStr "secret"]>
                 (delete "checksum" (submitted req)))
            = Ok signature.
Proof.
  refine (proj2 (sent_checksum_verifies example_world signed_in None None
                   VNone VNone None {[ "action" := VStr "agents" ]}
                   "" "secret" "" _ _) _ _).
  - vm_compute. reflexivity.
  - vm_compute. reflexivity.
  - reflexivity.
  - discriminate.
Defined.

(** ** The bound method and the free function, side by side *)

(** X20: where both can be called alike (the instance holds non-empty
    credentials and an endpoint, the caller passes an action and none of
    [_raw], [apikey], [secretkey], [version] and [_url], and the process can
    resolve a secret key), the bound method and the free function given the
    instance's credentials, version and endpoint each send exactly one
    request, the same one; on an HTTP error both raise the same error, and
    on a response the method returns the body as text, the function what
    [decode_json] makes of that body. *)
Theorem Monitis_post_sends_like_post `{Runtime} (self : instance) (w : world)
    (kwargs : gmap string value) (apikey secretkey ambient : string)
    (action : value) :
  self_apikey self = Some apikey → apikey ≠ "" →
  self_secretkey self = Some secretkey → secretkey ≠ "" →
  self_url self ≠ "" →
  resolve_secretkey (cfg w) = Ok ambient →
  kwargs !! "action" = Some action → truthy action = true →
  Forall (λ name, kwargs !! name = None)
    ["_raw"; "apikey"; "secretkey"; "version"; "_url"] →
  ∃ req,
    Monitis_post self w kwargs
    = ([req],
       match urlopen w req with
       | Reply res => Ok (Text (body res))
       | HTTPError page => Raise (MonitisError ("API Error: " +:+ page))
       end)
    ∧ post_from_instance self w kwargs
      = ([req],
         match urlopen w req with
         | Reply res => j ←! decode_json (body res); Ok (Decoded j)
         | HTTPError page => Raise (MonitisError ("API Error: " +:+ page))
         end).
Proof.
  intros Hak Hak' Hsk Hsk' Hurl Hamb Hact Htruthy Hnone.
  pose proof Hnone as Hall. rewrite !Forall_cons in Hall.
  destruct Hall as (Hraw & Hk & Hkey & Hv & Hu & _).
  set (signed := <["timestamp" := VStr (timestamp (now w))]>
                   (<["version" := self_version self]>
                      (<["apikey" := VStr apikey]> kwargs))).
  assert (Hfresh : signed !! "secretkey" = None).
  { unfold signed. by rewrite !lookup_insert_ne. }
  exists (Post (self_url self)
            (<["checksum" := VStr (b64encode (hmac_sha1 secretkey
                                                (signed_string signed)))]>
               signed)).
  split.
  - unfold Monitis_post. rewrite Hak. simpl. fold signed.
    rewrite (Monitis_checksum_own_key self (cfg w) signed secretkey)
      by done.
    unfold sign. unfold_io. fold (signed_string signed).
    by destruct (urlopen w _).
  - unfold post_from_instance.
    rewrite bool_decide_eq_true_2.
    2:{ rewrite !Forall_cons. done. }
    unfold post, pop. rewrite Hak, Hsk, Hact, Hamb. simpl.
    rewrite !bool_decide_eq_false_2 by done.
    rewrite lookup_delete_ne, Hraw by done. simpl.
    rewrite Htruthy. simpl.
    assert (Hsame :
      <["timestamp" := VStr (timestamp (now w))]>
        (<["version" := self_version self]>
           (<["action" := action]>
              (<["apikey" := VStr apikey]>
                 (delete "_raw" (delete "action" kwargs)))))
      = signed).
    { unfold signed. apply map_eq. intros k.
      destruct (decide (k = "timestamp")) as [->|?];
        [by rewrite !lookup_insert_eq
        |rewrite !(lookup_insert_ne _ "timestamp") by done].
      destruct (decide (k = "version")) as [->|?];
        [by rewrite !lookup_insert_eq
        |rewrite !(lookup_insert_ne _ "version") by done].
      destruct (decide (k = "action")) as [->|?].
      { rewrite lookup_insert_eq, lookup_insert_ne by done.
        by rewrite Hact. }
      rewrite (lookup_insert_ne _ "action") by done.
      destruct (decide (k = "apikey")) as [->|?];
        [by rewrite !lookup_insert_eq
        |rewrite !(lookup_insert_ne _ "apikey") by done].
      destruct (decide (k = "_raw")) as [->|?].
      { by rewrite lookup_delete_eq, Hraw. }
      by rewrite !lookup_delete_ne. }
    rewrite Hsame.
    rewrite (checksum_explicit (cfg w) _ (VStr secretkey) ambient)
      by (apply lookup_insert_eq || done).
    rewrite delete_insert_id by done.
    unfold sign. unfold_io. fold (signed_string signed).
    destruct (urlopen w _) as [res|page]; simpl; [|done].
    by destruct (decode_json (body res)).
Qed.

Lemma Monitis_post_sends_like_post_witness :
  ∃ req,
    Monitis_post signed_in example_world {[ "action" := VStr "agents" ]}
    = ([req],
       match urlopen example_world req with
       | Reply res => Ok (Text (body res))
       | HTTPError page => Raise (MonitisError ("API Error: " +:+ page))
       end)
    ∧ post_from_instance signed_in example_world
        {[ "action" := VStr "agents" ]}
      = ([req],
         match urlopen example_world req with
         | Reply res => j ←! decode_json (body res); Ok (Decoded j)
         | HTTPError page => Raise (MonitisError ("API Error: " +:+ page))
         end).
Proof.
  apply (Monitis_post_sends_like_post signed_in example_world
           {[ "action" := VStr "agents" ]} "abc" "secret" "secret"
           (VStr "agents"));
    try (reflexivity || discriminate).
  apply (bool_decide_unpack _). vm_compute. exact I.
Defined.
